(** * go-kvq (leviq): a namespaced FIFO queue over an ordered key-value store

    Shallow embedding of [queue.go] (the levigo-backed [Queue]) and of
    [backend/goleveldb/goleveldb.go] (the goleveldb-backed [Bucket] and
    [Batch]), followed by the properties proved about them.

    Conventions.
    - A Go [[]byte] is a [list byte]; a [nil] slice and an empty slice are both
      [[]], except for values returned by [Get], where [nil] is [None].
    - A Go [error] result is an [option error]; [None] is [nil].
    - A function returning several results returns a tuple.
    - An operation that can block for ever or panic returns an [outcome]. *)

From Stdlib Require Import ZArith NArith List Bool Lia.
From Stdlib Require Strings.Byte.
From stdpp Require Import base list.
Import ListNotations.

(** ** Bytes, keys and the byte-wise order of the store *)

Abbreviation byte := Init.Byte.byte.

Definition key := list byte.
Definition value := list byte.

Definition byte_compare (a b : byte) : comparison :=
  N.compare (Byte.to_N a) (Byte.to_N b).

(** [bytes.Compare], the comparator both LevelDB bindings use by default. *)
Fixpoint bytes_compare (a b : key) : comparison :=
  match a, b with
  | [], [] => Eq
  | [], _ :: _ => Lt
  | _ :: _, [] => Gt
  | x :: a', y :: b' =>
      match byte_compare x y with
      | Eq => bytes_compare a' b'
      | o => o
      end
  end.

Definition bytes_ltb (a b : key) : bool :=
  match bytes_compare a b with Lt => true | _ => false end.

Definition bytes_eqb (a b : key) : bool :=
  match bytes_compare a b with Eq => true | _ => false end.

(** [bytes.HasPrefix k p]. *)
Fixpoint has_prefix (k p : key) {struct p} : bool :=
  match p, k with
  | [], _ => true
  | _ :: _, [] => false
  | y :: p', x :: k' => Byte.eqb x y && has_prefix k' p'
  end.

(** ** Errors *)

(** The errors that reach the code under study: a key that is not an id
    (section 7 of the spec), goleveldb's [ErrNotFound], and whatever the
    storage reports. *)
Inductive error : Type :=
| DecodeError
| ErrNotFound
| IOError (code : N).

(** What a goroutine does when it runs a piece of code to its end or not. *)
Inductive outcome (A : Type) : Type :=
| Returns (a : A)
| Blocks
| Panics.
Arguments Returns {A} a.
Arguments Blocks {A}.
Arguments Panics {A}.

Definition obind {A B} (o : outcome A) (f : A -> outcome B) : outcome B :=
  match o with
  | Returns a => f a
  | Blocks => Blocks
  | Panics => Panics
  end.

Notation "'run' x <~ e ;; k" := (obind e (fun x => k))
  (at level 10, x name, e at level 99, k at level 200).

(** ** The id codec ([internal.ID]) *)

(** Modelled from the spec: the type [internal.ID] is not under src/.
    Section 3: an id is a monotonically increasing integer; it is a natural
    number here, and the ids in use stay below [2^64]. *)
Definition ID := N.

(** Modelled from the spec: the width of an encoded id is not under src/.
    Section 4.2 asks for a fixed width; it is eight bytes here. *)
Definition ID_WIDTH : nat := 8.

Definition byte_of_N (n : N) : byte :=
  match Byte.of_N (n mod 256) with
  | Some b => b
  | None => Byte.x00
  end.

(** Big-endian digits in base 256, [w] of them. *)
Fixpoint encode_be (w : nat) (n : N) : list byte :=
  match w with
  | O => []
  | S w' => encode_be w' (n / 256) ++ [byte_of_N n]
  end.

Definition decode_be (l : list byte) : N :=
  fold_left (fun acc b => (acc * 256 + Byte.to_N b)%N) l 0%N.

(** Modelled from the spec: [internal.ID.Key] is not under src/.  Section 4.2:
    a fixed-width, order-preserving (big-endian) encoding. *)
Definition ID_Key (id : ID) : key := encode_be ID_WIDTH id.

(** Modelled from the spec: [internal.KeyToID] is not under src/.  Section
    4.2: the inverse of the encoding, and a decode error for a key that is not
    a fixed-width id.  As in Go the id comes with the error; it is zero then. *)
Definition KeyToID (k : key) : ID * option error :=
  if Nat.eqb (length k) ID_WIDTH then (decode_be k, None)
  else (0%N, Some DecodeError).

(** Modelled from the spec: [joinKey] is not under src/.  Section 3: a key is
    the namespace prefix concatenated with the encoded id. *)
Definition joinKey (ns k : key) : key := ns ++ k.

(** Modelled from the spec: [splitKey] is not under src/.  Section 4.2: the
    key without its namespace prefix, and a distinguished result, which the
    callers test as [k == nil], for a key that does not share the prefix. *)
Definition splitKey (ns kk : key) : option key :=
  if has_prefix kk ns then Some (skipn (length ns) kk) else None.

(** ** The id heap ([internal.IDHeap]) *)

(** Modelled from the spec: [internal.IDHeap] is not under src/.  Section 4.3:
    an ordered container over the pending ids.  It is kept as the ascending
    list of its ids, so that pop-minimum takes the head. *)
Definition IDHeap := list ID.

(** Modelled from the spec: [IDHeap.PushID] is not under src/.  Section 4.3:
    push. *)
Fixpoint PushID (id : ID) (h : IDHeap) : IDHeap :=
  match h with
  | [] => [id]
  | x :: r => if (id <=? x)%N then id :: h else x :: PushID id r
  end.

(** Modelled from the spec: [IDHeap.PopID] is not under src/.  Section 4.3:
    pop-minimum.  The spec does not say what it does on an empty heap: there
    is no id to return, and the callers below panic. *)
Definition PopID (h : IDHeap) : option (ID * IDHeap) :=
  match h with
  | [] => None
  | x :: r => Some (x, r)
  end.

(** ** The LevelDB handle *)

Definition store := list (key * value).

(** The handle both bindings wrap: the entries in ascending key order, and what
    the next reads and writes answer when the storage fails. *)
Record LevelDB : Type := mkLevelDB {
  entries : store;
  read_fault : key -> option error;
  write_fault : option error
}.

Fixpoint store_get (s : store) (k : key) : option value :=
  match s with
  | [] => None
  | (k', v) :: r => if bytes_eqb k' k then Some v else store_get r k
  end.

Fixpoint store_put (k : key) (v : value) (s : store) : store :=
  match s with
  | [] => [(k, v)]
  | (k', v') :: r =>
      match bytes_compare k k' with
      | Lt => (k, v) :: s
      | Eq => (k, v) :: r
      | Gt => (k', v') :: store_put k v r
      end
  end.

Definition store_delete (k : key) (s : store) : store :=
  List.filter (fun kv => negb (bytes_eqb (fst kv) k)) s.

Inductive batch_op : Type :=
| BPut (k : key) (v : value)
| BDelete (k : key).

Definition WriteBatch := list batch_op.

Definition apply_op (s : store) (o : batch_op) : store :=
  match o with
  | BPut k v => store_put k v s
  | BDelete k => store_delete k s
  end.

Definition set_entries (d : LevelDB) (s : store) : LevelDB :=
  mkLevelDB s (read_fault d) (write_fault d).

(** [db.Write(wo, batch)]: the whole batch or nothing. *)
Definition db_Write (d : LevelDB) (b : WriteBatch) : LevelDB * option error :=
  match write_fault d with
  | Some e => (d, Some e)
  | None => (set_entries d (fold_left apply_op b (entries d)), None)
  end.

(** levigo's [db.Get(ro, key)]: a missing key is [nil, nil]. *)
Definition levigo_Get (d : LevelDB) (k : key) : option value * option error :=
  match read_fault d k with
  | Some e => (None, Some e)
  | None => (store_get (entries d) k, None)
  end.

(** goleveldb's [db.Get(key, nil)]: a missing key is [ErrNotFound]. *)
Definition goleveldb_Get (d : LevelDB) (k : key) : option value * option error :=
  match read_fault d k with
  | Some e => (None, Some e)
  | None =>
      match store_get (entries d) k with
      | Some v => (Some v, None)
      | None => (None, Some ErrNotFound)
      end
  end.

(** levigo iterators: the entries from the current position on. *)
Definition Iterator := list (key * value).

Definition it_SeekToFirst (d : LevelDB) : Iterator := entries d.

Fixpoint seek_from (s : store) (k : key) : Iterator :=
  match s with
  | [] => []
  | kv :: r => if bytes_ltb (fst kv) k then seek_from r k else s
  end.

(** [it.Seek(k)]: the first entry whose key is at or after [k]. *)
Definition it_Seek (d : LevelDB) (k : key) : Iterator :=
  seek_from (entries d) k.

Definition it_Valid (it : Iterator) : bool :=
  match it with [] => false | _ :: _ => true end.

Definition it_Key (it : Iterator) : key :=
  match it with [] => [] | (k, _) :: _ => k end.

Definition it_Next (it : Iterator) : Iterator := tl it.

(** goleveldb's [db.NewIterator(util.BytesPrefix(p), nil)]: the entries whose
    key starts with [p], in ascending order. *)
Definition prefix_range (d : LevelDB) (p : key) : list (key * value) :=
  List.filter (fun kv => has_prefix (fst kv) p) (entries d).

(** ** [queue.go]: the levigo-backed queue *)

Definition MaxQueue : Z := 1000000.

(** [type Queue struct].  The channel [c] carries no data: it is its number of
    buffered units and its capacity.  The mutex only matters between
    goroutines and is part of the interleaving model further down. *)
Record Queue : Type := mkQueue {
  ns : key;
  db : LevelDB;
  ids : IDHeap;
  sync : bool;
  c : Z;
  c_cap : Z
}.

Definition set_ids (q : Queue) (h : IDHeap) : Queue :=
  mkQueue (ns q) (db q) h (sync q) (c q) (c_cap q).

Definition set_c (q : Queue) (n : Z) : Queue :=
  mkQueue (ns q) (db q) (ids q) (sync q) n (c_cap q).

Definition set_db (q : Queue) (d : LevelDB) : Queue :=
  mkQueue (ns q) d (ids q) (sync q) (c q) (c_cap q).

(** [q.c <- struct{}{}] with no receiver around: it goes through while the
    buffer has room and blocks for ever once it is full. *)
Definition send (q : Queue) : outcome Queue :=
  if (c q <? c_cap q)%Z then Returns (set_c q (c q + 1)) else Blocks.

(** The position [init] and [Clear] start from. *)
Definition seek_ns (q : Queue) : Iterator :=
  match ns q with
  | [] => it_SeekToFirst (db q)
  | _ :: _ => it_Seek (db q) (ns q)
  end.

(** The loop of [Queue.init]; every turn ends with [it.Next()]. *)
Fixpoint init_loop (q : Queue) (it : Iterator) : outcome (Queue * option error) :=
  match it with
  | [] => Returns (q, None)
  | (kk, _) :: it' =>
      match splitKey (ns q) kk with
      | None => Returns (q, None)
      | Some k =>
          match KeyToID k with
          | (_, Some err) => Returns (q, Some err)
          | (id, None) =>
              run q' <~ send (set_ids q (PushID id (ids q))) ;;
              init_loop q' it'
          end
      end
  end.

Definition init (q : Queue) : outcome (Queue * option error) :=
  init_loop q (seek_ns q).

Definition SetSync (q : Queue) (b : bool) : Queue :=
  mkQueue (ns q) (db q) (ids q) b (c q) (c_cap q).

(** The loop of [Queue.Clear].  Its body never moves the iterator, so the
    number of turns is not bounded by the store: [fuel] counts them, and
    [None] says that [fuel] turns were not enough to leave the loop. *)
Fixpoint Clear_loop (fuel : nat) (q : Queue) (it : Iterator) (b : WriteBatch)
  : option WriteBatch :=
  match fuel with
  | O => None
  | S fuel' =>
      if it_Valid it then
        match splitKey (ns q) (it_Key it) with
        | None => Some b
        | Some _ => Clear_loop fuel' q it (b ++ [BDelete (it_Key it)])
        end
      else Some b
  end.

Definition Clear (fuel : nat) (q : Queue) : option (Queue * option error) :=
  match Clear_loop fuel q (seek_ns q) [] with
  | None => None
  | Some b => let (d, err) := db_Write (db q) b in Some (set_db q d, err)
  end.

(** [putKey]: for each id, push it, then signal. *)
Fixpoint putKey (q : Queue) (l : list ID) : outcome Queue :=
  match l with
  | [] => Returns q
  | id :: l' =>
      run q' <~ send (set_ids q (PushID id (ids q))) ;;
      putKey q' l'
  end.

(** One turn of the scheduler as seen by a [select]: how long the goroutine
    was away before it looks at the channels, and which case wins when both
    are ready. *)
Record turn : Type := mkTurn {
  delay : Z;
  prefer_cancel : bool
}.

Definition schedule := nat -> turn.

(** [time.AfterFunc(t, ...)] started at [now] closes [cancel] at this time; a
    duration that is not positive expires at once. *)
Definition expiry (now t : Z) : Z := (now + Z.max 0 t)%Z.

(** The [for { select { ... } }] of [awaitKeys], with no other goroutine
    touching the queue.  [h] and [cq] are [q.ids] and the units in [q.c];
    [i] counts the turns.  The match on [h] is [q.ids.PopID()], written out so
    that the loop goes down the heap.  With nothing to receive the goroutine
    sleeps until [cancel] is closed. *)
Fixpoint awaitKeys_loop (n : Z) (deadline : Z) (sch : schedule) (i : nat)
    (h : IDHeap) (cq : Z) (now : Z) (b : list key)
  : outcome (list key * IDHeap * Z * Z) :=
  let now1 := (now + Z.max 0 (delay (sch i)))%Z in
  let closed := (deadline <=? now1)%Z in
  if (0 <? cq)%Z && negb (closed && prefer_cancel (sch i)) then
    match h with
    | [] => Panics
    | id :: h' =>
        let b' := b ++ [ID_Key id] in
        if (Z.of_nat (length b') =? n)%Z then Returns (b', h', (cq - 1)%Z, now1)
        else awaitKeys_loop n deadline sch (S i) h' (cq - 1)%Z now1 b'
    end
  else Returns (b, h, cq, Z.max now1 deadline).

(** [awaitKeys(n, t)] called at time [now]: the keys, the queue and the time
    at which it returns. *)
Definition awaitKeys (n : Z) (t : Z) (sch : schedule) (now : Z) (q : Queue)
  : outcome (list key * Queue * Z) :=
  run r <~ awaitKeys_loop n (expiry now t) sch 0 (ids q) (c q) now [] ;;
  match r with
  | (b, h, cq, now') => Returns (b, set_c (set_ids q h) cq, now')
  end.

(** [awaitKey(t)]. *)
Definition awaitKey (t : Z) (sch : schedule) (now : Z) (q : Queue)
  : outcome (option key * Queue * Z) :=
  if (0 <? c q)%Z then
    match PopID (ids q) with
    | None => Panics
    | Some (id, h') => Returns (Some (ID_Key id), set_c (set_ids q h') (c q - 1), now)
    end
  else if (t =? 0)%Z then Returns (None, q, now)
  else
    run r <~ awaitKeys 1 t sch now q ;;
    match r with
    | (b, q', now') =>
        Returns (if Nat.eqb (length b) 1 then head b else None, q', now')
    end.

(** What [take] returns: [ids], [keys], [values], [err]. *)
Definition taken : Type :=
  (list ID * list key * list (option value) * option error)%type.

(** The [for i, k := range keys] of [take]; [rest] is what is left of [keys]
    from index [i] on.  [ids] and [values] are made with the length of [keys],
    so the index is always within them. *)
Fixpoint take_loop (q : Queue) (keys : list key) (i : nat) (rest : list key)
    (idsv : list ID) (values : list (option value)) (err : option error)
  : taken :=
  match rest with
  | [] => (idsv, keys, values, err)
  | k :: rest' =>
      let dbk := joinKey (ns q) k in
      let (v, e) := levigo_Get (db q) dbk in
      let values' := <[i := v]> values in
      match e with
      | Some _ => ([], [], [], e)
      | None =>
          let (id, e') := KeyToID k in
          take_loop q keys (S i) rest' (<[i := id]> idsv) values' e'
      end
  end.

(** [take(n, t)] called at time [now]. *)
Definition take (n : Z) (t : Z) (sch : schedule) (now : Z) (q : Queue)
  : outcome (taken * Queue * Z) :=
  run r <~ awaitKeys n t sch now q ;;
  match r with
  | (keys, q', now') =>
      let n' := length keys in
      Returns (take_loop q' keys 0 keys (replicate n' 0%N) (replicate n' None) None,
               q', now')
  end.

(** Modelled from the spec: the constructor of [Queue] is not under src/.
    Sections 3 and 7: a queue is built by running [init] on a queue with an
    empty heap, and a failing [init] aborts the construction, so that no queue
    is returned.  [queue.go] declares [MaxQueue] and uses it nowhere else: it
    is taken as the capacity of [c]. *)
Definition NewQueue (d : LevelDB) (name : key) : outcome (option Queue * option error) :=
  let q := mkQueue name d [] false 0 MaxQueue in
  run r <~ init q ;;
  match r with
  | (_, Some err) => Returns (None, Some err)
  | (q', None) => Returns (Some q', None)
  end.

(** Modelled from the spec: [Queue.Put] is not under src/.  Section 4.4:
    allocate the next id from the counter, write key -> value, then push the
    id and signal, which is [putKey].  [next] is the counter. *)
Definition Put (next : ID) (q : Queue) (item : value)
  : outcome (ID * Queue * option error) :=
  let id := next in
  let (d, err) := db_Write (db q) [BPut (joinKey (ns q) (ID_Key id)) item] in
  match err with
  | Some _ => Returns (N.succ next, q, err)
  | None =>
      run q' <~ putKey (set_db q d) [id] ;;
      Returns (N.succ next, q', None)
  end.

(** [Put] called once per item, in order, by a single goroutine; the first
    error stops the sequence. *)
Fixpoint PutAll (next : ID) (q : Queue) (items : list value)
  : outcome (ID * Queue * option error) :=
  match items with
  | [] => Returns (next, q, None)
  | item :: items' =>
      run r <~ Put next q item ;;
      match r with
      | (next', q', Some err) => Returns (next', q', Some err)
      | (next', q', None) => PutAll next' q' items'
      end
  end.

(** ** [backend/goleveldb/goleveldb.go] *)

Module goleveldb.

(** [type Bucket struct]. *)
Record Bucket : Type := mkBucket {
  db : LevelDB;
  ns : key
}.

(** [DB.Bucket(name)]. *)
Definition DB_Bucket (d : LevelDB) (name : key) : Bucket * option error :=
  (mkBucket d name, None).

(** [kk[n:]], which panics when [n] is beyond the length of [kk]. *)
Definition slice_from (kk : key) (n : nat) : outcome key :=
  if Nat.leb n (length kk) then Returns (skipn n kk) else Panics.

(** [append(ns[:], k...)] read as a value: the bytes of [ns] followed by
    those of [k].  The result may share the array of [ns]; every caller hands
    it to the store at once, and the store reads or copies it before the next
    call. *)
Definition append_ns (ns k : key) : key := ns ++ k.

(** The visitor of [ForEach] is a closure: [S] is what it captures.  It is
    shown the bytes of the key and of the value as they are during the call. *)
Definition visitor (S : Type) : Type := S -> key -> value -> S * option error.

Fixpoint ForEach_loop {S : Type} (q : Bucket) (fn : visitor S)
    (it : list (key * value)) (st : S) : outcome (S * option error) :=
  match it with
  | [] => Returns (st, None)
  | (kk, v) :: it' =>
      run k <~ slice_from kk (length (ns q)) ;;
      match fn st k v with
      | (st', Some err) => Returns (st', Some err)
      | (st', None) => ForEach_loop q fn it' st'
      end
  end.

Definition ForEach {S : Type} (q : Bucket) (fn : visitor S) (st : S)
  : outcome (S * option error) :=
  ForEach_loop q fn (prefix_range (db q) (ns q)) st.

(** [type Batch struct]; [levelDB] is the handle of the bucket that runs the
    batch. *)
Record Batch : Type := mkBatch {
  levelBatch : WriteBatch;
  batch_ns : key
}.

Definition Batch_Put (b : Batch) (k : key) (v : value) : Batch * option error :=
  let kk := append_ns (batch_ns b) k in
  (mkBatch (levelBatch b ++ [BPut kk v]) (batch_ns b), None).

Definition Batch_Delete (b : Batch) (k : key) : Batch * option error :=
  let kk := append_ns (batch_ns b) k in
  (mkBatch (levelBatch b ++ [BDelete kk]) (batch_ns b), None).

(** [Batch.Clear] and [Batch.Close]: [levelBatch.Reset()] drops what is
    staged. *)
Definition Batch_Clear (b : Batch) : Batch := mkBatch [] (batch_ns b).

Definition Batch_Close (b : Batch) : Batch := mkBatch [] (batch_ns b).

Definition Batch_Write (d : LevelDB) (b : Batch) : LevelDB * option error :=
  db_Write d (levelBatch b).

(** [Bucket.Batch]: [fn] stages its operations on a fresh batch, which is
    written when [fn] returns [nil] and dropped otherwise. *)
Definition Bucket_Batch (q : Bucket) (fn : Batch -> Batch * option error)
  : Bucket * option error :=
  let batch := mkBatch [] (ns q) in
  match fn batch with
  | (_, Some err) => (q, Some err)
  | (batch', None) =>
      let (d, err) := Batch_Write (db q) batch' in
      (mkBucket d (ns q), err)
  end.

Definition Get (q : Bucket) (k : key) : option value * option error :=
  let kk := append_ns (ns q) k in
  goleveldb_Get (db q) kk.

(** The loop of [Bucket.Clear]: it stages [b.Delete(k)] with the stripped
    key [k], on the batch of the underlying store. *)
Fixpoint Clear_loop (q : Bucket) (it : list (key * value)) (b : WriteBatch)
  : outcome WriteBatch :=
  match it with
  | [] => Returns b
  | (kk, _) :: it' =>
      run k <~ slice_from kk (length (ns q)) ;;
      Clear_loop q it' (b ++ [BDelete k])
  end.

Definition Clear (q : Bucket) : outcome (Bucket * option error) :=
  run b <~ Clear_loop q (prefix_range (db q) (ns q)) [] ;;
  let (d, err) := db_Write (db q) b in
  Returns (mkBucket d (ns q), err).

End goleveldb.

(** ** Goroutines: the queue shared between callers

    The functions above run one call at a time.  Here any number of goroutines
    run [init], [putKey], [awaitKey] and [awaitKeys] on one queue, one
    statement at a time.  Only the heap, the channel and the mutex are shared,
    so the state keeps those.  The timer of [awaitKeys] may close [cancel] at
    any moment. *)

(** Where a goroutine stands. *)
Inductive pc : Type :=
| Idle
| InitLoop (it : Iterator)          (* init: at [for it.Valid()] *)
| InitSend (it : Iterator)          (* init: pushed, at [q.c <- struct{}{}] *)
| PutLock (l : list ID)             (* putKey: at [q.mutex.Lock()] *)
| PutPush (l : list ID)             (* putKey: at [for _, id := range ids] *)
| PutSend (l : list ID)             (* putKey: pushed, at [q.c <- struct{}{}] *)
| KeySelect (t : Z)                 (* awaitKey: at [select] *)
| KeyLock                           (* awaitKey: received, at [q.mutex.Lock()] *)
| KeyPop                            (* awaitKey: at [q.ids.PopID()] *)
| AwaitSelect (n : Z) (b : list key)  (* awaitKeys: at [select] *)
| AwaitLock (n : Z) (b : list key)    (* awaitKeys: received, at [q.mutex.Lock()] *)
| AwaitPop (n : Z) (b : list key)     (* awaitKeys: at [q.ids.PopID()] *)
| Crashed.                          (* PopID found the heap empty *)

Record shared : Type := mkShared {
  s_ns : key;
  s_ids : IDHeap;
  s_c : Z;
  s_cap : Z;
  s_mutex : option nat;
  s_pcs : list pc
}.

Definition at_pc (s : shared) (i : nat) (p : pc) : Prop := s_pcs s !! i = Some p.

Definition goto (s : shared) (i : nat) (p : pc) : shared :=
  mkShared (s_ns s) (s_ids s) (s_c s) (s_cap s) (s_mutex s) (<[i := p]> (s_pcs s)).

Definition with_ids (s : shared) (h : IDHeap) : shared :=
  mkShared (s_ns s) h (s_c s) (s_cap s) (s_mutex s) (s_pcs s).

Definition with_c (s : shared) (n : Z) : shared :=
  mkShared (s_ns s) (s_ids s) n (s_cap s) (s_mutex s) (s_pcs s).

Definition with_mutex (s : shared) (m : option nat) : shared :=
  mkShared (s_ns s) (s_ids s) (s_c s) (s_cap s) m (s_pcs s).

(** After [PopID] in [awaitKeys]: back to the [select], or return. *)
Definition after_pop (n : Z) (b' : list key) : pc :=
  if (Z.of_nat (length b') =? n)%Z then Idle else AwaitSelect n b'.

Inductive step : shared -> shared -> Prop :=
(* a goroutine calls one of the functions *)
| call_init s i it :
    at_pc s i Idle -> step s (goto s i (InitLoop it))
| call_putKey s i l :
    at_pc s i Idle -> step s (goto s i (PutLock l))
| call_awaitKey s i t :
    at_pc s i Idle -> step s (goto s i (KeySelect t))
| call_awaitKeys s i n :
    at_pc s i Idle -> step s (goto s i (AwaitSelect n []))
(* init *)
| init_end s i :
    at_pc s i (InitLoop []) -> step s (goto s i Idle)
| init_break s i kk v it :
    at_pc s i (InitLoop ((kk, v) :: it)) ->
    splitKey (s_ns s) kk = None ->
    step s (goto s i Idle)
| init_err s i kk v it k id err :
    at_pc s i (InitLoop ((kk, v) :: it)) ->
    splitKey (s_ns s) kk = Some k ->
    KeyToID k = (id, Some err) ->
    step s (goto s i Idle)
| init_push s i kk v it k id :
    at_pc s i (InitLoop ((kk, v) :: it)) ->
    splitKey (s_ns s) kk = Some k ->
    KeyToID k = (id, None) ->
    step s (goto (with_ids s (PushID id (s_ids s))) i (InitSend it))
| init_send s i it :
    at_pc s i (InitSend it) ->
    (s_c s < s_cap s)%Z ->
    step s (goto (with_c s (s_c s + 1)) i (InitLoop it))
(* putKey *)
| put_lock s i l :
    at_pc s i (PutLock l) ->
    s_mutex s = None ->
    step s (goto (with_mutex s (Some i)) i (PutPush l))
| put_push s i id l :
    at_pc s i (PutPush (id :: l)) ->
    step s (goto (with_ids s (PushID id (s_ids s))) i (PutSend l))
| put_send s i l :
    at_pc s i (PutSend l) ->
    (s_c s < s_cap s)%Z ->
    step s (goto (with_c s (s_c s + 1)) i (PutPush l))
| put_unlock s i :
    at_pc s i (PutPush []) ->
    step s (goto (with_mutex s None) i Idle)
(* awaitKey *)
| key_recv s i t :
    at_pc s i (KeySelect t) ->
    (0 < s_c s)%Z ->
    step s (goto (with_c s (s_c s - 1)) i KeyLock)
| key_default_zero s i :
    at_pc s i (KeySelect 0) ->
    (s_c s <= 0)%Z ->
    step s (goto s i Idle)
| key_default_wait s i t :
    at_pc s i (KeySelect t) ->
    (s_c s <= 0)%Z ->
    t <> 0%Z ->
    step s (goto s i (AwaitSelect 1 []))
| key_lock s i :
    at_pc s i KeyLock ->
    s_mutex s = None ->
    step s (goto (with_mutex s (Some i)) i KeyPop)
| key_pop s i id h :
    at_pc s i KeyPop ->
    PopID (s_ids s) = Some (id, h) ->
    step s (goto (with_mutex (with_ids s h) None) i Idle)
| key_pop_empty s i :
    at_pc s i KeyPop ->
    PopID (s_ids s) = None ->
    step s (goto s i Crashed)
(* awaitKeys *)
| await_recv s i n b :
    at_pc s i (AwaitSelect n b) ->
    (0 < s_c s)%Z ->
    step s (goto (with_c s (s_c s - 1)) i (AwaitLock n b))
| await_cancel s i n b :
    at_pc s i (AwaitSelect n b) ->
    step s (goto s i Idle)
| await_lock s i n b :
    at_pc s i (AwaitLock n b) ->
    s_mutex s = None ->
    step s (goto (with_mutex s (Some i)) i (AwaitPop n b))
| await_pop s i n b id h :
    at_pc s i (AwaitPop n b) ->
    PopID (s_ids s) = Some (id, h) ->
    step s (goto (with_mutex (with_ids s h) None) i (after_pop n (b ++ [ID_Key id])))
| await_pop_empty s i n b :
    at_pc s i (AwaitPop n b) ->
    PopID (s_ids s) = None ->
    step s (goto s i Crashed).

(** A fresh queue and [k] goroutines that have not called anything yet. *)
Definition start (name : key) (cap : Z) (k : nat) : shared :=
  mkShared name [] 0 cap None (replicate k Idle).

Inductive reachable (name : key) (cap : Z) (k : nat) : shared -> Prop :=
| reach_start : reachable name cap k (start name cap k)
| reach_step s s' : reachable name cap k s -> step s s' -> reachable name cap k s'.

(** A goroutine that has received from [q.c] and not popped yet holds a unit;
    one that has pushed and not sent yet owes one. *)
Definition in_flight (p : pc) : Z :=
  match p with
  | InitSend _ | PutSend _ | KeyLock | KeyPop | AwaitLock _ _ | AwaitPop _ _ => 1
  | _ => 0
  end.

Definition past_wait_point (p : pc) : bool :=
  match p with
  | KeyLock | KeyPop | AwaitLock _ _ | AwaitPop _ _ => true
  | _ => false
  end.

Fixpoint total_in_flight (ps : list pc) : Z :=
  match ps with
  | [] => 0
  | p :: ps' => (in_flight p + total_in_flight ps')%Z
  end.

(** ** Predicates used in the statements *)

(** The entries of a store are in strictly ascending key order. *)
Fixpoint ascending (s : store) : bool :=
  match s with
  | [] => true
  | (k, _) :: r =>
      match r with
      | [] => true
      | (k', _) :: _ => bytes_ltb k k' && ascending r
      end
  end.

(** Neither namespace is a byte-prefix of the other. *)
Definition unrelated (a b : key) : Prop :=
  has_prefix a b = false /\ has_prefix b a = false.

(** What a visitor does to the entries [l], stopping at its first error. *)
Fixpoint visit_all {S : Type} (fn : goleveldb.visitor S) (l : list (key * value))
    (st : S) : S * option error :=
  match l with
  | [] => (st, None)
  | (k, v) :: l' =>
      match fn st k v with
      | (st', Some err) => (st', Some err)
      | (st', None) => visit_all fn l' st'
      end
  end.

(** An entry seen from inside a namespace, and put back under it. *)
Definition relative (p : key) (kv : key * value) : key * value :=
  (skipn (length p) (fst kv), snd kv).

Definition absolute (p : key) (kv : key * value) : key * value :=
  (p ++ fst kv, snd kv).

(** The visitor that records what it is shown. *)
Definition collect : goleveldb.visitor (list (key * value)) :=
  fun st k v => (st ++ [(k, v)], None).

(** The ids of the entries [l] of namespace [p], in order, up to the first key
    that does not decode. *)
Fixpoint decode_range (p : key) (l : list (key * value)) : list ID * option error :=
  match l with
  | [] => ([], None)
  | (kk, _) :: l' =>
      match KeyToID (skipn (length p) kk) with
      | (_, Some err) => ([], Some err)
      | (id, None) => let (r, e) := decode_range p l' in (id :: r, e)
      end
  end.

Definition push_all (h : IDHeap) (l : list ID) : IDHeap :=
  fold_left (fun h id => PushID id h) l h.

(** The time the scheduler takes for [m] turns from turn [i] on. *)
Fixpoint elapsed (sch : schedule) (i m : nat) : Z :=
  match m with
  | O => 0
  | S m' => (Z.max 0 (delay (sch i)) + elapsed sch (S i) m')%Z
  end.

(** What [init] and [Clear] meet after the range. *)
Definition range_end (p : key) (rest : Iterator) : Prop :=
  match rest with
  | [] => True
  | (k, _) :: _ => has_prefix k p = false
  end.

Definition omap {A B : Type} (f : A -> B) (o : outcome A) : outcome B :=
  match o with
  | Returns a => Returns (f a)
  | Blocks => Blocks
  | Panics => Panics
  end.

(** The same results over another handle. *)
Definition taken_over (d : LevelDB) (r : taken * Queue * Z) : taken * Queue * Z :=
  match r with (tk, q, now) => (tk, set_db q d, now) end.

Definition init_over (d : LevelDB) (r : Queue * option error) : Queue * option error :=
  match r with (q, err) => (set_db q d, err) end.

Definition built_over (d : LevelDB) (r : option Queue * option error)
  : option Queue * option error :=
  match r with (oq, err) => (option_map (fun q => set_db q d) oq, err) end.

(** What holds of the shared state at every step. *)
Definition balanced (s : shared) : Prop :=
  (0 <= s_c s)%Z /\
  Z.of_nat (length (s_ids s)) = (s_c s + total_in_flight (s_pcs s))%Z /\
  (forall i, s_pcs s !! i <> Some Crashed).

(** The ids a counter standing at [next] hands out to [n] calls of [Put]. *)
Fixpoint ids_from (next : ID) (n : nat) : list ID :=
  match n with
  | O => []
  | S n' => next :: ids_from (N.succ next) n'
  end.

(** The store after those calls have written their items under namespace [p]. *)
Fixpoint put_items (p : key) (next : ID) (items : list value) (s : store) : store :=
  match items with
  | [] => s
  | item :: items' =>
      put_items p (N.succ next) items' (store_put (joinKey p (ID_Key next)) item s)
  end.

(** Ids are 64-bit. *)
Definition ID_LIMIT : N := 2 ^ 64.

(** The store answers the reads of the values of the ids [l]. *)
Definition reads_ok (q : Queue) (l : list ID) : Prop :=
  forall id, In id l -> read_fault (db q) (joinKey (ns q) (ID_Key id)) = None.

(** What [take] returns for the ids [l] when it returns them: the ids decoded
    from their keys, the keys, the values the store holds under the keys of
    the namespace, and [nil]. *)
Definition taken_of (q : Queue) (l : list ID) : taken :=
  (map (fun id => fst (KeyToID (ID_Key id))) l,
   map ID_Key l,
   map (fun id => store_get (entries (db q)) (joinKey (ns q) (ID_Key id))) l,
   None).

(** The statements a goroutine runs between [q.mutex.Lock()] and
    [q.mutex.Unlock()]. *)
Definition holds_mutex (p : pc) : bool :=
  match p with
  | PutPush _ | PutSend _ | KeyPop | AwaitPop _ _ => true
  | _ => false
  end.

(** The mutex is held by the goroutines that stand between [Lock] and
    [Unlock], and by no other. *)
Definition mutex_tracks (s : shared) : Prop :=
  forall i p, s_pcs s !! i = Some p -> (holds_mutex p = true <-> s_mutex s = Some i).

(** No goroutine can move. *)
Definition stuck (s : shared) : Prop := forall s', ~ step s s'.

(** Goroutine 0 stands in [putKey] at its send, with the mutex held and the
    channel full; goroutine 1 has received in [awaitKeys] and stands at
    [q.mutex.Lock()]. *)
Definition jammed (name : key) (cap : Z) (h : IDHeap) (n : Z) : shared :=
  mkShared name h cap cap (Some 0) [PutSend []; AwaitLock n []].

(** A call that the function given to [Bucket.Batch] makes on its batch. *)
Inductive staged : Type :=
| SPut (k : key) (v : value)
| SDelete (k : key)
| SClear.

Definition stage (b : goleveldb.Batch) (o : staged) : goleveldb.Batch * option error :=
  match o with
  | SPut k v => goleveldb.Batch_Put b k v
  | SDelete k => goleveldb.Batch_Delete b k
  | SClear => (goleveldb.Batch_Clear b, None)
  end.

(** A batch function: it makes the calls [ops] in order, gives up at the
    first one that returns an error, and returns [final] at the end. *)
Fixpoint stage_all (ops : list staged) (final : option error) (b : goleveldb.Batch)
  : goleveldb.Batch * option error :=
  match ops with
  | [] => (b, final)
  | o :: ops' =>
      match stage b o with
      | (b', Some err) => (b', Some err)
      | (b', None) => stage_all ops' final b'
      end
  end.

(** The key an operation of a write batch is on. *)
Definition op_key (o : batch_op) : key :=
  match o with
  | BPut k _ => k
  | BDelete k => k
  end.

(** What the calls [ops] leave staged for the key [k], starting from [acc]:
    [Some (Some v)] is a put of [v], [Some None] a delete, [None] nothing. *)
Fixpoint staged_for (ops : list staged) (k : key) (acc : option (option value))
  : option (option value) :=
  match ops with
  | [] => acc
  | SPut k' v :: r => staged_for r k (if bytes_eqb k' k then Some (Some v) else acc)
  | SDelete k' :: r => staged_for r k (if bytes_eqb k' k then Some None else acc)
  | SClear :: r => staged_for r k None
  end.

(** A visitor that counts its calls and fails on the key [bad]. *)
Definition count_until (bad : key) : goleveldb.visitor nat :=
  fun st k _ => (S st, if bytes_eqb k bad then Some ErrNotFound else None).

(** ** Concrete inputs *)

Definition ns_a : key := [Byte.x61].             (* "a" *)
Definition ns_ab : key := [Byte.x61; Byte.x62].  (* "ab" *)
Definition ns_b : key := [Byte.x62].             (* "b" *)

(** A store that answers every read and write. *)
Definition healthy (s : store) : LevelDB := mkLevelDB s (fun _ => None) None.

(** A store whose reads of [bad] fail. *)
Definition failing_read (s : store) (bad : key) (e : error) : LevelDB :=
  mkLevelDB s (fun k => if bytes_eqb k bad then Some e else None) None.

Definition item1 : value := [Byte.x31].  (* "1" *)
Definition item2 : value := [Byte.x32].  (* "2" *)

(** A store holding the ids [0 .. n-1] of the [nil] namespace. *)
Definition crowd (n : nat) : store :=
  map (fun i => (ID_Key (N.of_nat i), @nil byte)) (seq 0 n).

Definition crowded : LevelDB := healthy (crowd (Z.to_nat (MaxQueue + 1))).

(** Namespace "a" holding one item, as a queue and as a bucket. *)
Definition one_item : LevelDB := healthy [(ns_a ++ ID_Key 1%N, item1)].

Definition q_one : Queue := mkQueue ns_a one_item [1%N] false 1 MaxQueue.

Definition bucket_one : goleveldb.Bucket := goleveldb.mkBucket one_item ns_a.

(** The channel never promises more than the heap holds. *)
Definition signals_covered (q : Queue) : Prop :=
  (0 <= c q <= Z.of_nat (length (ids q)))%Z.

(** A scheduler that never delays and lets the receive win. *)
Definition prompt : schedule := fun _ => mkTurn 0 false.

(** Namespace "a" holding one item whose value cannot be read. *)
Definition q_unreadable : Queue :=
  mkQueue ns_a
    (failing_read [(ns_a ++ ID_Key 1%N, item1)] (ns_a ++ ID_Key 1%N) (IOError 5))
    [1%N] false 1 MaxQueue.

(** One goroutine that has pushed id 1 in [putKey] and has not signalled yet. *)
Definition pushed_not_signalled : shared :=
  mkShared ns_a [1%N] 0 MaxQueue (Some 0) [PutSend []].

(** A fresh queue on namespace "a" over an empty store. *)
Definition q_fresh : Queue := mkQueue ns_a (healthy []) [] false 0 MaxQueue.

(** [n] payloads, all different. *)
Definition payloads (n : nat) : list value :=
  map (fun i => ID_Key (N.of_nat i)) (seq 0 n).

(** One store, in key order, with an item of the [nil] namespace under id 1
    and an item of namespace "a" under id 1. *)
Definition two_namespaces : LevelDB :=
  healthy [(ID_Key 1%N, item2); (ns_a ++ ID_Key 1%N, item1)].

(** Namespace "a" holding two items. *)
Definition q_two : Queue :=
  mkQueue ns_a
    (healthy [(ns_a ++ ID_Key 1%N, item1); (ns_a ++ ID_Key 2%N, item2)])
    [1%N; 2%N] false 2 MaxQueue.

(** A scheduler whose second [select] picks [cancel] if it is closed. *)
Definition cancel_second : schedule := fun i => mkTurn 0 (Nat.eqb i 1).

(** A scheduler whose every [select] picks [cancel] if it is closed. *)
Definition cancel_first : schedule := fun _ => mkTurn 0 true.

(* ===================================================================== *)
(** * Properties *)
(* ===================================================================== *)

(** ** Bytes and keys *)

Lemma to_N_inj (a b : byte) : Byte.to_N a = Byte.to_N b -> a = b.
Proof.
  intros H.
  assert (E : Byte.of_N (Byte.to_N a) = Byte.of_N (Byte.to_N b)) by (rewrite H; reflexivity).
  rewrite !Byte.of_to_N in E. congruence.
Qed.

Lemma byte_compare_eq (a b : byte) : byte_compare a b = Eq <-> a = b.
Proof.
  unfold byte_compare. rewrite N.compare_eq_iff. split.
  - apply to_N_inj.
  - intros ->. reflexivity.
Qed.

Lemma byte_compare_refl (a : byte) : byte_compare a a = Eq.
Proof. apply byte_compare_eq. reflexivity. Qed.

Lemma byte_eqb_eq (a b : byte) : Byte.eqb a b = true <-> a = b.
Proof.
  split.
  - apply Byte.byte_dec_bl.
  - apply Byte.byte_dec_lb.
Qed.

Lemma byte_eqb_refl (a : byte) : Byte.eqb a a = true.
Proof. apply byte_eqb_eq. reflexivity. Qed.

Lemma byte_compare_lt (a b : byte) :
  byte_compare a b = Lt <-> (Byte.to_N a < Byte.to_N b)%N.
Proof. unfold byte_compare. apply N.compare_lt_iff. Qed.

Lemma byte_compare_gt (a b : byte) :
  byte_compare a b = Gt <-> (Byte.to_N b < Byte.to_N a)%N.
Proof. unfold byte_compare. apply N.compare_gt_iff. Qed.

Lemma bytes_compare_eq (a b : key) : bytes_compare a b = Eq <-> a = b.
Proof.
  revert b. induction a as [|x a IH]; intros [|y b]; simpl; try (split; congruence).
  destruct (byte_compare x y) eqn:E.
  - apply byte_compare_eq in E. subst y. rewrite IH. split; congruence.
  - split; [discriminate|]. intros [= -> _]. rewrite byte_compare_refl in E. discriminate.
  - split; [discriminate|]. intros [= -> _]. rewrite byte_compare_refl in E. discriminate.
Qed.

Lemma bytes_compare_refl (a : key) : bytes_compare a a = Eq.
Proof. apply bytes_compare_eq. reflexivity. Qed.

Lemma bytes_eqb_eq (a b : key) : bytes_eqb a b = true <-> a = b.
Proof.
  unfold bytes_eqb. rewrite <- bytes_compare_eq.
  destruct (bytes_compare a b); split; congruence.
Qed.

Lemma bytes_eqb_refl (a : key) : bytes_eqb a a = true.
Proof. apply bytes_eqb_eq. reflexivity. Qed.

Lemma bytes_eqb_neq (a b : key) : a <> b -> bytes_eqb a b = false.
Proof.
  intros H. destruct (bytes_eqb a b) eqn:E; [|reflexivity].
  apply bytes_eqb_eq in E. contradiction.
Qed.

Lemma bytes_eqb_sym (a b : key) : bytes_eqb a b = bytes_eqb b a.
Proof.
  destruct (bytes_eqb a b) eqn:E.
  - apply bytes_eqb_eq in E. subst. symmetry. apply bytes_eqb_refl.
  - destruct (bytes_eqb b a) eqn:E'; [|reflexivity].
    apply bytes_eqb_eq in E'. subst. rewrite bytes_eqb_refl in E. discriminate.
Qed.

Lemma bytes_ltb_irrefl (a : key) : bytes_ltb a a = false.
Proof. unfold bytes_ltb. rewrite bytes_compare_refl. reflexivity. Qed.

Lemma bytes_ltb_trans (a b d : key) :
  bytes_ltb a b = true -> bytes_ltb b d = true -> bytes_ltb a d = true.
Proof.
  unfold bytes_ltb. revert b d.
  induction a as [|x a IH]; intros [|y b] [|z d]; simpl; try congruence.
  intros H1 H2.
  destruct (byte_compare x y) eqn:Exy; try discriminate H1;
    destruct (byte_compare y z) eqn:Eyz; try discriminate H2.
  - apply byte_compare_eq in Exy, Eyz. subst. rewrite byte_compare_refl. eauto.
  - apply byte_compare_eq in Exy. subst. rewrite Eyz. reflexivity.
  - apply byte_compare_eq in Eyz. subst. rewrite Exy. reflexivity.
  - apply (proj1 (byte_compare_lt _ _)) in Exy.
    apply (proj1 (byte_compare_lt _ _)) in Eyz.
    assert (E : byte_compare x z = Lt) by (apply (proj2 (byte_compare_lt x z)); lia).
    rewrite E. reflexivity.
Qed.

Lemma has_prefix_app (p r : key) : has_prefix (p ++ r) p = true.
Proof.
  induction p as [|y p IH]; simpl; [reflexivity|].
  rewrite byte_eqb_refl. exact IH.
Qed.

Lemma has_prefix_split (k p : key) :
  has_prefix k p = true -> k = p ++ skipn (length p) k.
Proof.
  revert k. induction p as [|y p IH]; intros k; simpl.
  - reflexivity.
  - destruct k as [|x k]; [discriminate|].
    intros H. apply andb_prop in H as [H1 H2].
    apply byte_eqb_eq in H1. subst y. simpl. f_equal. apply IH. exact H2.
Qed.

Lemma has_prefix_length (k p : key) :
  has_prefix k p = true -> length p <= length k.
Proof.
  intros H. rewrite (has_prefix_split k p H) at 1.
  rewrite length_app. lia.
Qed.

Lemma skipn_prefix (p r : key) : skipn (length p) (p ++ r) = r.
Proof. induction p; simpl; auto. Qed.

(** A key that starts with [b] and was built on [a] relates [a] and [b]. *)
Lemma has_prefix_app_related (a b r : key) :
  has_prefix (a ++ r) b = true ->
  has_prefix a b = true \/ has_prefix b a = true.
Proof.
  revert b. induction a as [|x a IH]; intros b; simpl.
  - intros _. right. destruct b; reflexivity.
  - destruct b as [|y b]; simpl; [left; reflexivity|].
    intros H. apply andb_prop in H as [H1 H2].
    rewrite H1. simpl.
    apply byte_eqb_eq in H1. subst y. rewrite byte_eqb_refl. simpl.
    apply IH. exact H2.
Qed.

Lemma unrelated_no_prefix (a b r : key) :
  unrelated a b -> has_prefix (a ++ r) b = false.
Proof.
  intros [H1 H2]. destruct (has_prefix (a ++ r) b) eqn:E; [|reflexivity].
  apply has_prefix_app_related in E as [E|E]; congruence.
Qed.

Lemma unrelated_keys_differ (a b r r' : key) :
  unrelated a b -> a ++ r <> b ++ r'.
Proof.
  intros H E.
  pose proof (unrelated_no_prefix a b r H) as N.
  rewrite E, has_prefix_app in N. discriminate.
Qed.

(** ** The store *)

Lemma store_get_put (s : store) (k : key) (v : value) (k' : key) :
  store_get (store_put k v s) k' =
  if bytes_eqb k k' then Some v else store_get s k'.
Proof.
  induction s as [|[k0 v0] s IH]; simpl.
  - reflexivity.
  - destruct (bytes_compare k k0) eqn:E; simpl.
    + apply bytes_compare_eq in E. subst k0.
      destruct (bytes_eqb k k'); reflexivity.
    + reflexivity.
    + rewrite IH. destruct (bytes_eqb k0 k') eqn:E0; [|reflexivity].
      apply bytes_eqb_eq in E0. subst k'.
      rewrite bytes_eqb_neq; [reflexivity|].
      intros ->. rewrite bytes_compare_refl in E. discriminate.
Qed.

Lemma store_get_delete (s : store) (k k' : key) :
  store_get (store_delete k s) k' =
  if bytes_eqb k k' then None else store_get s k'.
Proof.
  unfold store_delete. induction s as [|[k0 v0] s IH]; simpl.
  - destruct (bytes_eqb k k'); reflexivity.
  - destruct (bytes_eqb k0 k) eqn:E0; simpl.
    + rewrite IH. apply bytes_eqb_eq in E0. subst k0.
      destruct (bytes_eqb k k'); reflexivity.
    + rewrite IH. destruct (bytes_eqb k0 k') eqn:E1; [|reflexivity].
      apply bytes_eqb_eq in E1. subst k'.
      rewrite bytes_eqb_sym, E0. reflexivity.
Qed.

(** Writing a key leaves alone every range the key is not in. *)
Lemma filter_store_put (P : key -> bool) (k : key) (v : value) (s : store) :
  P k = false ->
  List.filter (fun kv => P (fst kv)) (store_put k v s) =
  List.filter (fun kv => P (fst kv)) s.
Proof.
  intros HP. induction s as [|[k0 v0] s IH]; simpl.
  - rewrite HP. reflexivity.
  - destruct (bytes_compare k k0) eqn:E; simpl.
    + apply bytes_compare_eq in E. subst k0. rewrite HP. reflexivity.
    + rewrite HP. reflexivity.
    + rewrite IH. reflexivity.
Qed.

(** ** The id codec *)

Lemma encode_be_length (w : nat) (n : N) : length (encode_be w n) = w.
Proof.
  revert n. induction w as [|w IH]; intros n; simpl; [reflexivity|].
  rewrite length_app, IH. simpl. lia.
Qed.

Lemma ID_Key_length (id : ID) : length (ID_Key id) = ID_WIDTH.
Proof. apply encode_be_length. Qed.

Lemma KeyToID_Key (id : ID) : KeyToID (ID_Key id) = (decode_be (ID_Key id), None).
Proof. unfold KeyToID. rewrite ID_Key_length, Nat.eqb_refl. reflexivity. Qed.

Lemma byte_of_N_value (n : N) : Byte.to_N (byte_of_N n) = (n mod 256)%N.
Proof.
  unfold byte_of_N. destruct (Byte.of_N (n mod 256)) as [b|] eqn:E.
  - apply Byte.to_of_N. exact E.
  - apply Byte.of_N_None_iff in E.
    pose proof (N.mod_upper_bound n 256). lia.
Qed.

Lemma decode_be_snoc (l : list byte) (b : byte) :
  decode_be (l ++ [b]) = (decode_be l * 256 + Byte.to_N b)%N.
Proof. unfold decode_be. rewrite fold_left_app. reflexivity. Qed.

(** Decoding an encoded number gives it back, up to the width. *)
Lemma decode_encode_be (w : nat) (n : N) :
  decode_be (encode_be w n) = (n mod 256 ^ N.of_nat w)%N.
Proof.
  revert n. induction w as [|w IH]; intros n.
  - simpl. rewrite N.mod_1_r. reflexivity.
  - cbn [encode_be]. rewrite decode_be_snoc, IH, byte_of_N_value.
    rewrite Nat2N.inj_succ, N.pow_succ_r', N.Div0.mod_mul_r. lia.
Qed.

Lemma KeyToID_roundtrip (id : ID) :
  (id < ID_LIMIT)%N -> KeyToID (ID_Key id) = (id, None).
Proof.
  intros H. rewrite KeyToID_Key. unfold ID_Key. rewrite decode_encode_be.
  rewrite N.mod_small; [reflexivity|exact H].
Qed.

Lemma ID_Key_inj (i j : ID) :
  (i < ID_LIMIT)%N -> (j < ID_LIMIT)%N -> ID_Key i = ID_Key j -> i = j.
Proof.
  intros Hi Hj E.
  pose proof (KeyToID_roundtrip i Hi) as Ei.
  pose proof (KeyToID_roundtrip j Hj) as Ej.
  rewrite E in Ei. congruence.
Qed.

(** ** The encoding keeps the order of the ids *)

Lemma bytes_compare_app (a b x y : key) :
  length a = length b ->
  bytes_compare (a ++ x) (b ++ y) =
  match bytes_compare a b with
  | Eq => bytes_compare x y
  | o => o
  end.
Proof.
  revert b. induction a as [|u a IH]; intros [|w b] Hl; try discriminate.
  - reflexivity.
  - simpl in Hl. injection Hl as Hl. simpl.
    destruct (byte_compare u w); [apply IH; exact Hl|reflexivity|reflexivity].
Qed.

(** Section 3 of the spec: byte-lexical order equals numeric order. *)
Lemma encode_be_lt (w : nat) :
  forall i j : N,
    (i < j)%N -> (j < 256 ^ N.of_nat w)%N ->
    bytes_compare (encode_be w i) (encode_be w j) = Lt.
Proof.
  induction w as [|w IH]; intros i j Hij Hj.
  - simpl in Hj. lia.
  - cbn [encode_be].
    rewrite bytes_compare_app by (rewrite !encode_be_length; reflexivity).
    rewrite Nat2N.inj_succ, N.pow_succ_r' in Hj.
    assert (Hdiv : (i / 256 <= j / 256)%N) by (apply N.Div0.div_le_mono; lia).
    assert (Hjd : (j / 256 < 256 ^ N.of_nat w)%N)
      by (apply N.Div0.div_lt_upper_bound; lia).
    destruct (N.eq_dec (i / 256)%N (j / 256)%N) as [E|NE].
    + rewrite E, bytes_compare_refl. simpl.
      assert (Hb : byte_compare (byte_of_N i) (byte_of_N j) = Lt).
      { apply (proj2 (byte_compare_lt _ _)). rewrite !byte_of_N_value.
        pose proof (N.div_mod i 256%N ltac:(lia)).
        pose proof (N.div_mod j 256%N ltac:(lia)). lia. }
      rewrite Hb. reflexivity.
    + rewrite (IH (i / 256)%N (j / 256)%N); [reflexivity|lia|exact Hjd].
Qed.

Lemma ID_Key_lt (i j : ID) :
  (i < j)%N -> (j < ID_LIMIT)%N -> bytes_ltb (ID_Key i) (ID_Key j) = true.
Proof.
  intros Hij Hj. unfold bytes_ltb, ID_Key.
  rewrite (encode_be_lt ID_WIDTH i j Hij Hj). reflexivity.
Qed.

(** ** [goleveldb.go]: buckets *)

Lemma prefix_range_in (d : LevelDB) (p : key) (kv : key * value) :
  In kv (prefix_range d p) <-> In kv (entries d) /\ has_prefix (fst kv) p = true.
Proof. unfold prefix_range. apply filter_In. Qed.

Lemma absolute_relative (p : key) (l : list (key * value)) :
  Forall (fun kv => has_prefix (fst kv) p = true) l ->
  map (absolute p) (map (relative p) l) = l.
Proof.
  induction 1 as [|[k v] l H _ IH]; simpl; [reflexivity|].
  rewrite IH. unfold absolute, relative. simpl.
  rewrite <- (has_prefix_split k p H). reflexivity.
Qed.

Lemma prefix_range_Forall (d : LevelDB) (p : key) :
  Forall (fun kv => has_prefix (fst kv) p = true) (prefix_range d p).
Proof.
  apply List.Forall_forall. intros kv H. apply prefix_range_in in H. tauto.
Qed.

(** Inside its range [ForEach] never slices out of bounds, and shows the
    visitor the stripped keys. *)
Lemma ForEach_loop_visit {S : Type} (q : goleveldb.Bucket) (fn : goleveldb.visitor S)
    (it : list (key * value)) (st : S) :
  Forall (fun kv => has_prefix (fst kv) (goleveldb.ns q) = true) it ->
  goleveldb.ForEach_loop q fn it st =
  Returns (visit_all fn (map (relative (goleveldb.ns q)) it) st).
Proof.
  intros H. revert st. induction H as [|[kk v] it Hk _ IH]; intros st; simpl.
  - reflexivity.
  - unfold goleveldb.slice_from.
    pose proof (has_prefix_length _ _ Hk) as Hl. simpl in Hl.
    apply Nat.leb_le in Hl. rewrite Hl. simpl.
    destruct (fn st _ v) as [st' [err|]]; [reflexivity|]. apply IH.
Qed.

Lemma ForEach_visit {S : Type} (q : goleveldb.Bucket) (fn : goleveldb.visitor S) (st : S) :
  goleveldb.ForEach q fn st =
  Returns (visit_all fn
             (map (relative (goleveldb.ns q))
                  (prefix_range (goleveldb.db q) (goleveldb.ns q))) st).
Proof. apply ForEach_loop_visit, prefix_range_Forall. Qed.

Lemma visit_all_collect (l acc : list (key * value)) :
  visit_all collect l acc = (acc ++ l, None).
Proof.
  revert acc. induction l as [|[k v] l IH]; intros acc; simpl.
  - rewrite app_nil_r. reflexivity.
  - rewrite IH, <- app_assoc. reflexivity.
Qed.

Lemma Batch_Put_written (q : goleveldb.Bucket) (k : key) (v : value) :
  goleveldb.Bucket_Batch q (fun b => goleveldb.Batch_Put b k v) =
  let (d, err) := db_Write (goleveldb.db q) [BPut (goleveldb.ns q ++ k) v] in
  (goleveldb.mkBucket d (goleveldb.ns q), err).
Proof. reflexivity. Qed.

Lemma Batch_Delete_written (q : goleveldb.Bucket) (k : key) :
  goleveldb.Bucket_Batch q (fun b => goleveldb.Batch_Delete b k) =
  let (d, err) := db_Write (goleveldb.db q) [BDelete (goleveldb.ns q ++ k)] in
  (goleveldb.mkBucket d (goleveldb.ns q), err).
Proof. reflexivity. Qed.

(** C10.  Every bucket operation takes and shows keys relative to the
    namespace.  [ForEach] shows the visitor the entries [seen] which, put back
    under the namespace, are exactly the entries of the underlying store that
    start with it.  [Get k] reads the underlying store at [ns ++ k].  A batch
    with [Put k v] (resp. [Delete k]) sets (resp. removes) [ns ++ k] in the
    underlying store and nothing else. *)
Theorem Bucket_keys_namespace_relative (q : goleveldb.Bucket) :
  write_fault (goleveldb.db q) = None ->
  (exists seen,
      map (absolute (goleveldb.ns q)) seen =
        prefix_range (goleveldb.db q) (goleveldb.ns q) /\
      forall (S : Type) (fn : goleveldb.visitor S) (st : S),
        goleveldb.ForEach q fn st = Returns (visit_all fn seen st)) /\
  (forall k,
      goleveldb.Get q k = goleveldb_Get (goleveldb.db q) (goleveldb.ns q ++ k)) /\
  (forall k v,
      exists q',
        goleveldb.Bucket_Batch q (fun b => goleveldb.Batch_Put b k v) = (q', None) /\
        goleveldb.ns q' = goleveldb.ns q /\
        forall kk,
          store_get (entries (goleveldb.db q')) kk =
          if bytes_eqb (goleveldb.ns q ++ k) kk then Some v
          else store_get (entries (goleveldb.db q)) kk) /\
  (forall k,
      exists q',
        goleveldb.Bucket_Batch q (fun b => goleveldb.Batch_Delete b k) = (q', None) /\
        goleveldb.ns q' = goleveldb.ns q /\
        forall kk,
          store_get (entries (goleveldb.db q')) kk =
          if bytes_eqb (goleveldb.ns q ++ k) kk then None
          else store_get (entries (goleveldb.db q)) kk).
Proof.
  intros Hw. repeat split.
  - exists (map (relative (goleveldb.ns q))
             (prefix_range (goleveldb.db q) (goleveldb.ns q))).
    split.
    + apply absolute_relative, prefix_range_Forall.
    + intros S fn st. apply ForEach_visit.
  - intros k v. rewrite Batch_Put_written. unfold db_Write. rewrite Hw.
    eexists. split; [reflexivity|]. split; [reflexivity|].
    intros kk. simpl. apply store_get_put.
  - intros k. rewrite Batch_Delete_written. unfold db_Write. rewrite Hw.
    eexists. split; [reflexivity|]. split; [reflexivity|].
    intros kk. simpl. apply store_get_delete.
Qed.

Lemma Bucket_keys_namespace_relative_witness :
  write_fault (goleveldb.db (goleveldb.mkBucket (healthy []) ns_a)) = None /\
  exists q',
    goleveldb.Bucket_Batch (goleveldb.mkBucket (healthy []) ns_a)
      (fun b => goleveldb.Batch_Put b (ID_Key 1%N) item1) = (q', None) /\
    goleveldb.Get q' (ID_Key 1%N) = (Some item1, None).
Proof.
  split; [reflexivity|].
  destruct (Bucket_keys_namespace_relative
              (goleveldb.mkBucket (healthy []) ns_a) eq_refl)
    as (_ & _ & HPut & _).
  destruct (HPut (ID_Key 1%N) item1) as (q' & E & _ & _).
  exists q'. split; [exact E|].
  vm_compute in E. injection E as <-. vm_compute. reflexivity.
Defined.

(** ** Scanning a namespace with [Seek] *)

Lemma prefix_not_before (k p : key) :
  has_prefix k p = true -> bytes_ltb k p = false.
Proof.
  unfold bytes_ltb. revert k. induction p as [|y p IH]; intros k; simpl.
  - destruct k; reflexivity.
  - destruct k as [|x k]; [discriminate|]. simpl.
    intros H. apply andb_prop in H as [H1 H2].
    apply byte_eqb_eq in H1. subst y. rewrite byte_compare_refl. auto.
Qed.

(** Past the first key at or after [p] that does not start with [p], no key
    starts with [p]. *)
Lemma prefix_contiguous (p k1 k2 : key) :
  bytes_ltb k1 p = false ->
  has_prefix k1 p = false ->
  bytes_ltb k1 k2 = true ->
  has_prefix k2 p = false.
Proof.
  unfold bytes_ltb. revert k1 k2.
  induction p as [|y p IH]; intros k1 k2; simpl; [discriminate|].
  destruct k1 as [|x1 k1]; simpl; [discriminate|].
  destruct k2 as [|x2 k2]; simpl; [reflexivity|].
  intros Hge Hnp Hlt.
  destruct (Byte.eqb x2 y) eqn:E2; [|reflexivity]. simpl.
  apply byte_eqb_eq in E2. subst x2.
  destruct (byte_compare x1 y) eqn:E1.
  - apply byte_compare_eq in E1. subst x1.
    rewrite byte_eqb_refl in Hnp. simpl in Hnp. eauto.
  - discriminate.
  - discriminate.
Qed.

Lemma ascending_tail (kv : key * value) (r : store) :
  ascending (kv :: r) = true -> ascending r = true.
Proof.
  destruct kv as [k v]. simpl. destruct r as [|[k' v'] r]; [reflexivity|].
  intros H. apply andb_prop in H. tauto.
Qed.

Lemma ascending_head (k : key) (v : value) (r : store) :
  ascending ((k, v) :: r) = true ->
  Forall (fun kv => bytes_ltb k (fst kv) = true) r.
Proof.
  revert k v. induction r as [|[k' v'] r IH]; intros k v H; constructor.
  - simpl in H. apply andb_prop in H. tauto.
  - simpl in H. apply andb_prop in H as [H1 H2].
    specialize (IH k' v' H2).
    eapply List.Forall_impl; [|exact IH].
    intros [k2 v2] H3. simpl in *. eapply bytes_ltb_trans; eauto.
Qed.

Lemma ascending_cons (k : key) (v : value) (r : store) :
  match r with [] => True | (k', _) :: _ => bytes_ltb k k' = true end ->
  ascending r = true ->
  ascending ((k, v) :: r) = true.
Proof.
  destruct r as [|[k' v'] r]; intros H Hr; [reflexivity|].
  change (bytes_ltb k k' && ascending ((k', v') :: r) = true).
  rewrite H, Hr. reflexivity.
Qed.

Lemma range_empty_after (p k : key) (r : store) :
  bytes_ltb k p = false ->
  has_prefix k p = false ->
  Forall (fun kv => bytes_ltb k (fst kv) = true) r ->
  List.filter (fun kv => has_prefix (fst kv) p) r = [].
Proof.
  intros Hge Hnp. induction 1 as [|[k' v'] r Hlt _ IH]; simpl; [reflexivity|].
  simpl in Hlt. rewrite (prefix_contiguous p k k' Hge Hnp Hlt). exact IH.
Qed.

Lemma range_from_start (p : key) (s : store) :
  ascending s = true ->
  match s with [] => True | (k, _) :: _ => bytes_ltb k p = false end ->
  exists rest,
    s = List.filter (fun kv => has_prefix (fst kv) p) s ++ rest /\ range_end p rest.
Proof.
  induction s as [|[k v] r IH]; intros Hasc Hge.
  - exists []. split; [reflexivity|exact I].
  - simpl. destruct (has_prefix k p) eqn:Hp.
    + destruct IH as (rest & E & Hend).
      * eapply ascending_tail; eauto.
      * destruct r as [|[k' v'] r']; [exact I|].
        simpl in Hasc. apply andb_prop in Hasc as [Hlt _].
        destruct (bytes_ltb k' p) eqn:E'; [|reflexivity].
        rewrite (bytes_ltb_trans _ _ _ Hlt E') in Hge. discriminate.
      * exists rest. split; [|exact Hend]. simpl. f_equal. exact E.
    + rewrite (range_empty_after p k r Hge Hp (ascending_head k v r Hasc)).
      exists ((k, v) :: r). split; [reflexivity|]. simpl. exact Hp.
Qed.

(** On an ascending store, [Seek(p)] lands on the range of [p], and what
    follows the range does not start with [p]. *)
Lemma seek_lands_on_range (p : key) (s : store) :
  ascending s = true ->
  exists rest,
    seek_from s p = List.filter (fun kv => has_prefix (fst kv) p) s ++ rest /\
    range_end p rest.
Proof.
  induction s as [|[k v] r IH]; intros Hasc.
  - exists []. split; [reflexivity|exact I].
  - simpl seek_from. destruct (bytes_ltb k p) eqn:Hlt.
    + simpl. destruct (has_prefix k p) eqn:Hp.
      * rewrite (prefix_not_before _ _ Hp) in Hlt. discriminate.
      * apply IH. eapply ascending_tail; eauto.
    + apply range_from_start; [exact Hasc|exact Hlt].
Qed.

Lemma seek_from_nil (s : store) : seek_from s [] = s.
Proof.
  destruct s as [|[k v] r]; [reflexivity|].
  simpl. unfold bytes_ltb. destruct k; reflexivity.
Qed.

(** With a [nil] namespace [SeekToFirst] is the same position as [Seek]. *)
Lemma seek_ns_from (q : Queue) : seek_ns q = seek_from (entries (db q)) (ns q).
Proof.
  unfold seek_ns. destruct (ns q) eqn:E.
  - rewrite seek_from_nil. reflexivity.
  - reflexivity.
Qed.

(** ** [Queue.init] *)

Lemma push_all_perm (l : list ID) (h : IDHeap) : Permutation (push_all h l) (l ++ h).
Proof.
  assert (P : forall id h0, Permutation (PushID id h0) (id :: h0)).
  { intros id h0. induction h0 as [|x r IH]; simpl; [reflexivity|].
    destruct (id <=? x)%N; [reflexivity|].
    rewrite IH. apply perm_swap. }
  revert h. induction l as [|id l IH]; intros h; simpl; [reflexivity|].
  unfold push_all in *. rewrite IH, P. symmetry. apply Permutation_middle.
Qed.

Lemma decode_range_length (p : key) (l : list (key * value)) :
  length (fst (decode_range p l)) <= length l.
Proof.
  induction l as [|[kk v] l IH]; simpl; [lia|].
  destruct (KeyToID _) as [id [err|]]; simpl; [lia|].
  destruct (decode_range p l). simpl in *. lia.
Qed.

(** [init] on the range of its namespace followed by a key that is out of
    range: every id up to the first key that does not decode is pushed and
    signalled, provided the channel has room for the signals. *)
Lemma init_loop_range (range rest : Iterator) (q : Queue) :
  Forall (fun kv => has_prefix (fst kv) (ns q) = true) range ->
  range_end (ns q) rest ->
  (c q + Z.of_nat (length (fst (decode_range (ns q) range))) <= c_cap q)%Z ->
  init_loop q (range ++ rest) =
  Returns (set_c (set_ids q (push_all (ids q) (fst (decode_range (ns q) range))))
                 (c q + Z.of_nat (length (fst (decode_range (ns q) range)))),
           snd (decode_range (ns q) range)).
Proof.
  intros Hr Hend. revert q Hr Hend.
  induction range as [|[kk v] range IH]; intros q Hr Hend Hcap.
  - simpl. rewrite Z.add_0_r.
    destruct q as [n d h sy cq cap]; simpl in *.
    destruct rest as [|[k v] rest]; [reflexivity|].
    simpl. unfold splitKey. rewrite Hend. reflexivity.
  - inversion Hr as [|? ? Hk Hr']; subst. simpl in Hk.
    simpl. unfold splitKey. rewrite Hk.
    destruct (KeyToID (skipn (length (ns q)) kk)) as [id [err|]] eqn:E.
    + simpl. rewrite Z.add_0_r.
      destruct q; reflexivity.
    + simpl in Hcap. rewrite E in Hcap.
      destruct (decode_range (ns q) range) as [idl e] eqn:D. simpl in *.
      unfold send. simpl.
      assert (Hlt : (c q <? c_cap q)%Z = true) by (apply Z.ltb_lt; lia).
      rewrite Hlt. simpl.
      rewrite IH; simpl; try assumption.
      * rewrite D. simpl. f_equal. f_equal.
        destruct q as [n d h sy cq cap]; unfold set_c, set_ids; simpl.
        f_equal. lia.
      * rewrite D. simpl. lia.
Qed.

(** The same scan when the signals do not fit in the channel: [init] blocks on
    [q.c <- struct{}{}] and never returns. *)
Lemma init_loop_blocks (range rest : Iterator) (q : Queue) :
  Forall (fun kv => has_prefix (fst kv) (ns q) = true) range ->
  (c q <= c_cap q)%Z ->
  (c_cap q < c q + Z.of_nat (length (fst (decode_range (ns q) range))))%Z ->
  init_loop q (range ++ rest) = Blocks.
Proof.
  intros Hr. revert q Hr.
  induction range as [|[kk v] range IH]; intros q Hr Hc Hcap.
  - simpl in Hcap. lia.
  - inversion Hr as [|? ? Hk Hr']; subst. simpl in Hk.
    simpl. unfold splitKey. rewrite Hk.
    simpl in Hcap.
    destruct (KeyToID (skipn (length (ns q)) kk)) as [id [err|]] eqn:E.
    + simpl in Hcap. lia.
    + destruct (decode_range (ns q) range) as [idl e] eqn:D. simpl in *.
      unfold send. simpl.
      destruct (c q <? c_cap q)%Z eqn:Hlt; [|reflexivity]. simpl.
      apply Z.ltb_lt in Hlt.
      apply IH; simpl; try assumption; try lia.
      rewrite D. simpl. lia.
Qed.

Lemma decode_range_all (p : key) (l : list (key * value)) :
  snd (decode_range p l) = None ->
  fst (decode_range p l) =
  map (fun kv => fst (KeyToID (skipn (length p) (fst kv)))) l.
Proof.
  induction l as [|[kk v] l IH]; simpl; [reflexivity|].
  destruct (KeyToID _) as [id [err|]]; simpl; [discriminate|].
  destruct (decode_range p l) as [r e]. simpl in *.
  intros ->. rewrite IH; reflexivity.
Qed.

Lemma decode_range_error (p : key) (l : list (key * value)) (err : error) :
  snd (decode_range p l) = Some err ->
  exists kv, In kv l /\ snd (KeyToID (skipn (length p) (fst kv))) = Some err.
Proof.
  induction l as [|[kk v] l IH]; simpl; [discriminate|].
  destruct (KeyToID _) as [id [e|]] eqn:E; simpl.
  - intros [= ->]. exists (kk, v). split; [left; reflexivity|]. simpl. rewrite E. reflexivity.
  - destruct (decode_range p l) as [r e]. simpl in *.
    intros H. destruct (IH H) as (kv & Hin & Hkv). exists kv. tauto.
Qed.

(** C8, as the code has it.  On a store in key order whose namespace holds at
    most [MaxQueue] keys, building a queue scans exactly the entries of the
    namespace.  When all their keys decode, the queue is returned with every
    decoded id in the heap and one signal per id.  When one does not decode,
    the construction returns that error and no queue. *)
Theorem NewQueue_recovers (d : LevelDB) (name : key) :
  ascending (entries d) = true ->
  (Z.of_nat (length (prefix_range d name)) <= MaxQueue)%Z ->
  match snd (decode_range name (prefix_range d name)) with
  | None =>
      exists q,
        NewQueue d name = Returns (Some q, None) /\
        ns q = name /\ db q = d /\
        Permutation (ids q)
          (map (fun kv => fst (KeyToID (skipn (length name) (fst kv))))
               (prefix_range d name)) /\
        c q = Z.of_nat (length (prefix_range d name))
  | Some err =>
      NewQueue d name = Returns (None, Some err) /\
      exists kv, In kv (prefix_range d name) /\
                 snd (KeyToID (skipn (length name) (fst kv))) = Some err
  end.
Proof.
  intros Hasc Hcap.
  destruct (seek_lands_on_range name (entries d) Hasc) as (rest & Hseek & Hend).
  pose proof (decode_range_length name (prefix_range d name)) as Hlen.
  unfold NewQueue, init. rewrite seek_ns_from. simpl ns. simpl db.
  rewrite Hseek. fold (prefix_range d name).
  rewrite init_loop_range; simpl; try assumption.
  2: apply prefix_range_Forall.
  2: lia.
  destruct (snd (decode_range name (prefix_range d name))) as [err|] eqn:E.
  - split; [reflexivity|]. apply decode_range_error. exact E.
  - eexists. split; [reflexivity|]. simpl.
    rewrite <- (decode_range_all _ _ E).
    repeat split.
    + rewrite push_all_perm, app_nil_r. reflexivity.
    + rewrite (decode_range_all _ _ E), length_map. reflexivity.
Qed.

Lemma NewQueue_recovers_witness :
  ascending (entries one_item) = true /\
  (Z.of_nat (length (prefix_range one_item ns_a)) <= MaxQueue)%Z /\
  exists q, NewQueue one_item ns_a = Returns (Some q, None) /\ ids q = [1%N] /\ c q = 1%Z.
Proof.
  assert (Hc : (Z.of_nat (length (prefix_range one_item ns_a)) <= MaxQueue)%Z)
    by (vm_compute; discriminate).
  split; [reflexivity|]. split; [exact Hc|].
  pose proof (NewQueue_recovers one_item ns_a eq_refl Hc) as H.
  vm_compute in H. destruct H as (q & E & _ & _ & _ & Hq).
  exists q. split; [exact E|].
  injection E as <-. split; reflexivity.
Defined.

Lemma ids_store_ascending (n : nat) :
  forall start : nat,
    (N.of_nat (start + n) <= ID_LIMIT)%N ->
    ascending (map (fun i => (ID_Key (N.of_nat i), @nil byte)) (seq start n)) = true.
Proof.
  induction n as [|n IH]; intros start Hn; [reflexivity|].
  cbn [seq map]. apply ascending_cons.
  - destruct n as [|n]; [exact I|]. cbn [seq map].
    apply ID_Key_lt; lia.
  - apply IH. lia.
Qed.

(** The crowded store is a store: its keys are in order. *)
Lemma crowded_ascending : ascending (entries crowded) = true.
Proof.
  unfold crowded, crowd. cbn [entries healthy].
  apply ids_store_ascending.
  rewrite Nat.add_0_l, Z_nat_N. vm_compute. discriminate.
Qed.

Lemma decode_range_ids (l : list nat) :
  decode_range [] (map (fun i => (ID_Key (N.of_nat i), @nil byte)) l) =
  (map (fun i => decode_be (ID_Key (N.of_nat i))) l, None).
Proof.
  induction l as [|i l IH]; [reflexivity|].
  cbn [map decode_range length]. rewrite skipn_O, KeyToID_Key, IH. reflexivity.
Qed.

Lemma crowd_range (n : nat) : prefix_range (healthy (crowd n)) [] = crowd n.
Proof.
  unfold prefix_range. cbn [entries healthy].
  generalize (crowd n). intros l.
  induction l as [|kv l IH]; [reflexivity|].
  simpl in *. rewrite IH. reflexivity.
Qed.

Lemma NewQueue_crowd_blocks (n : nat) :
  (MaxQueue < Z.of_nat n)%Z ->
  NewQueue (healthy (crowd n)) [] = Blocks.
Proof.
  intros Hn.
  pose proof (init_loop_blocks (crowd n) []
                (mkQueue [] (healthy (crowd n)) [] false 0 MaxQueue)) as H.
  rewrite app_nil_r in H.
  unfold NewQueue, init, seek_ns. cbn [ns db it_SeekToFirst entries healthy].
  rewrite H; [reflexivity| | |]; cbn [ns c c_cap ids].
  - apply List.Forall_forall. intros kv _. reflexivity.
  - unfold MaxQueue. lia.
  - unfold crowd. rewrite decode_range_ids. cbn [fst].
    rewrite length_map, length_seq. lia.
Qed.

(** Counterexample to C8 as stated: on a store in key order with
    [MaxQueue + 1] keys in the namespace, all of which decode, [init] blocks
    on its last signal and no queue is ever built. *)
Lemma NewQueue_crowded_blocks :
  ascending (entries crowded) = true /\
  snd (decode_range [] (prefix_range crowded [])) = None /\
  length (prefix_range crowded []) = Z.to_nat (MaxQueue + 1) /\
  NewQueue crowded [] = Blocks.
Proof.
  split; [exact crowded_ascending|].
  unfold crowded. rewrite crowd_range.
  split; [|split].
  - unfold crowd. rewrite decode_range_ids. reflexivity.
  - unfold crowd. rewrite length_map, length_seq. reflexivity.
  - apply NewQueue_crowd_blocks. rewrite Z2Nat.id; unfold MaxQueue; lia.
Qed.

(** ** [Queue.Clear] and [Bucket.Clear] *)

(** Once the loop of [Clear] stands on a key of the namespace it stays there. *)
Lemma Clear_loop_stuck (q : Queue) (it : Iterator) :
  it_Valid it = true ->
  splitKey (ns q) (it_Key it) <> None ->
  forall fuel b, Clear_loop fuel q it b = None.
Proof.
  intros Hv Hs. induction fuel as [|fuel IH]; intros b; simpl; [reflexivity|].
  rewrite Hv. destruct (splitKey (ns q) (it_Key it)); [apply IH|contradiction].
Qed.

(** On a store in key order, [Queue.Clear] leaves its loop exactly when the
    namespace is empty already. *)
Lemma Clear_diverges (q : Queue) :
  ascending (entries (db q)) = true ->
  prefix_range (db q) (ns q) <> [] ->
  forall fuel, Clear fuel q = None.
Proof.
  intros Hasc Hne fuel. unfold Clear.
  rewrite seek_ns_from.
  destruct (seek_lands_on_range (ns q) (entries (db q)) Hasc) as (rest & Hseek & _).
  rewrite Hseek. fold (prefix_range (db q) (ns q)).
  pose proof (prefix_range_Forall (db q) (ns q)) as HF.
  destruct (prefix_range (db q) (ns q)) as [|[k v] r]; [contradiction|].
  inversion HF as [|? ? Hk _]; subst. simpl in Hk.
  rewrite Clear_loop_stuck; [reflexivity|reflexivity|].
  simpl. unfold splitKey. rewrite Hk. discriminate.
Qed.

Lemma Clear_empty_namespace (q : Queue) :
  ascending (entries (db q)) = true ->
  prefix_range (db q) (ns q) = [] ->
  Clear 1 q = Some (let (d, err) := db_Write (db q) [] in (set_db q d, err)).
Proof.
  intros Hasc He. unfold Clear. rewrite seek_ns_from.
  destruct (seek_lands_on_range (ns q) (entries (db q)) Hasc) as (rest & Hseek & Hend).
  rewrite Hseek. fold (prefix_range (db q) (ns q)). rewrite He. simpl.
  destruct rest as [|[k v] rest]; simpl.
  - destruct (db_Write (db q) []); reflexivity.
  - unfold splitKey. simpl in Hend. rewrite Hend.
    destruct (db_Write (db q) []); reflexivity.
Qed.

(** [Bucket.Clear] on namespace "a" deletes the stripped keys from the
    underlying store: the item of the [nil] namespace goes, the item of "a"
    stays. *)
Lemma Bucket_Clear_deletes_foreign_key :
  ascending (entries two_namespaces) = true /\
  exists b',
    goleveldb.Clear (goleveldb.mkBucket two_namespaces ns_a) = Returns (b', None) /\
    entries (goleveldb.db b') = [(ns_a ++ ID_Key 1%N, item1)].
Proof.
  split; [reflexivity|].
  eexists. split; vm_compute; reflexivity.
Qed.

(** C1 at the failing inputs.  With one item in namespace "a", the loop of
    [Queue.Clear] never ends, whatever the number of turns it is given; and
    [Bucket.Clear] returns [nil] with the item still in the store. *)
Theorem Clear_leaves_the_item :
  (forall fuel, Clear fuel q_one = None) /\
  (exists b',
      goleveldb.Clear bucket_one = Returns (b', None) /\
      prefix_range (goleveldb.db b') ns_a = [(ns_a ++ ID_Key 1%N, item1)]).
Proof.
  split.
  - apply Clear_diverges; [reflexivity|]. vm_compute. discriminate.
  - eexists. split; vm_compute; reflexivity.
Qed.

(** ** [awaitKeys] *)

Lemma elapsed_nonneg (sch : schedule) (m i : nat) : (0 <= elapsed sch i m)%Z.
Proof. revert i. induction m as [|m IH]; intros i; simpl; [lia|]. specialize (IH (S i)). lia. Qed.

Lemma elapsed_S (sch : schedule) (i m : nat) :
  elapsed sch i (S m) = (Z.max 0 (delay (sch i)) + elapsed sch (S i) m)%Z.
Proof. reflexivity. Qed.

Lemma elapsed_mono (sch : schedule) (m m' i : nat) :
  m <= m' -> (elapsed sch i m <= elapsed sch i m')%Z.
Proof.
  revert m' i. induction m as [|m IH]; intros m' i H.
  - simpl. apply elapsed_nonneg.
  - destruct m' as [|m']; [lia|]. simpl. specialize (IH m' (S i)). lia.
Qed.

(** What a call of [awaitKeys] does when the channel never promises more than
    the heap holds: it pops the [k] smallest ids, for some [k] within the
    units of [q.c], and returns either as soon as it holds [n] keys, or when
    [cancel] is closed: with nothing left to receive it sleeps until then. *)
Lemma awaitKeys_loop_spec (n dl : Z) (sch : schedule) (h : IDHeap) :
  forall (i : nat) (cq now : Z) (b : list key),
    (0 <= cq <= Z.of_nat (length h))%Z ->
    exists (k : nat) (now' : Z),
      awaitKeys_loop n dl sch i h cq now b =
        Returns (b ++ map ID_Key (firstn k h), skipn k h, (cq - Z.of_nat k)%Z, now') /\
      (Z.of_nat k <= cq)%Z /\
      (forall j, 0 < j < k -> Z.of_nat (length b + j) <> n) /\
      ((0 < k /\ Z.of_nat (length b + k) = n /\ now' = (now + elapsed sch i k)%Z) \/
       (now' = Z.max (now + elapsed sch i (S k)) dl /\
        (0 < k -> Z.of_nat (length b + k) <> n) /\
        ((cq - Z.of_nat k)%Z = 0%Z \/
         ((dl <= now + elapsed sch i (S k))%Z /\ prefer_cancel (sch (i + k)) = true)))).
Proof.
  induction h as [|id h IH]; intros i cq now b Hc.
  - simpl in Hc. assert (cq = 0%Z) by lia. subst cq.
    exists 0, (Z.max (now + elapsed sch i 1) dl). simpl.
    rewrite app_nil_r, Z.add_0_r. repeat split; try lia.
  - cbn [awaitKeys_loop].
    destruct ((0 <? cq)%Z && negb ((dl <=? now + Z.max 0 (delay (sch i)))%Z
                                   && prefer_cancel (sch i))) eqn:Hsel.
    + apply andb_prop in Hsel as [Hpos Hsel]. apply Z.ltb_lt in Hpos.
      destruct (Z.of_nat (length (b ++ [ID_Key id])) =? n)%Z eqn:Hn.
      * apply Z.eqb_eq in Hn. rewrite length_app in Hn. simpl in Hn.
        exists 1, (now + elapsed sch i 1)%Z. simpl.
        rewrite Z.add_0_r.
        split; [f_equal; f_equal; lia|].
        split; [lia|]. split; [lia|]. left. lia.
      * apply Z.eqb_neq in Hn. rewrite length_app in Hn. simpl in Hn.
        simpl in Hc.
        destruct (IH (S i) (cq - 1)%Z (now + Z.max 0 (delay (sch i)))%Z
                    (b ++ [ID_Key id])) as (k & now' & E & Hk & Hj & Ht); [lia|].
        exists (S k), now'. rewrite E. simpl firstn. simpl skipn. simpl map.
        rewrite <- app_assoc. cbn [app].
        split; [f_equal; f_equal; f_equal; lia|].
        split; [lia|].
        split.
        { intros j Hjk. destruct j as [|j]; [lia|]. destruct j as [|j]; [lia|].
          specialize (Hj (S j)). rewrite length_app in Hj. simpl in Hj.
          intros Heq. apply Hj; lia. }
        rewrite length_app in Ht. simpl in Ht.
        cbn [elapsed] in Ht |- *.
        replace (i + S k) with (S i + k) by lia.
        destruct Ht as [(Hk0 & Hfull & Hnow)|(Hnow & Hlast & Hwhy)].
        { left. repeat split; lia. }
        { right. split; [lia|]. split.
          - intros _. destruct k as [|k]; [lia|]. specialize (Hlast ltac:(lia)). lia.
          - destruct Hwhy as [?|[? ?]]; [left; lia|right; split; [lia|assumption]]. }
    + exists 0, (Z.max (now + elapsed sch i 1) dl). simpl.
      rewrite app_nil_r, !Z.add_0_r, Z.sub_0_r. repeat split; try lia.
      right. split; [reflexivity|]. split; [lia|].
      apply andb_false_iff in Hsel as [Hsel|Hsel].
      * apply Z.ltb_ge in Hsel. left. lia.
      * apply negb_false_iff in Hsel. apply andb_prop in Hsel as [H1 H2].
        apply Z.leb_le in H1. right. rewrite Nat.add_0_r. split; [lia|assumption].
Qed.

Lemma awaitKeys_spec (n t : Z) (sch : schedule) (now : Z) (q : Queue) :
  signals_covered q ->
  exists (k : nat) (now' : Z),
    awaitKeys n t sch now q =
      Returns (map ID_Key (firstn k (ids q)),
               set_c (set_ids q (skipn k (ids q))) (c q - Z.of_nat k), now') /\
    (Z.of_nat k <= c q)%Z /\
    (forall j, 0 < j < k -> Z.of_nat j <> n) /\
    ((0 < k /\ Z.of_nat k = n /\ now' = (now + elapsed sch 0 k)%Z) \/
     (now' = Z.max (now + elapsed sch 0 (S k)) (expiry now t) /\
      (0 < k -> Z.of_nat k <> n) /\
      ((c q - Z.of_nat k)%Z = 0%Z \/
       ((expiry now t <= now + elapsed sch 0 (S k))%Z /\
        prefer_cancel (sch k) = true)))).
Proof.
  intros Hc.
  destruct (awaitKeys_loop_spec n (expiry now t) sch (ids q) 0 (c q) now [] Hc)
    as (k & now' & E & Hk & Hj & Ht).
  exists k, now'. unfold awaitKeys. rewrite E. simpl.
  repeat split; assumption.
Qed.

(** ** [take] *)

(** The loop of [take] when the store answers every read: slot [i] of [ids]
    and of [values] is filled from key [i], and the error returned is that of
    the last decoding. *)
Lemma take_loop_ok (q : Queue) (keys : list key) :
  forall (rest : list key) (i : nat) (idsv : list ID)
         (values : list (option value)) (err : option error),
    length idsv = i + length rest ->
    length values = i + length rest ->
    Forall (fun k => read_fault (db q) (joinKey (ns q) k) = None) rest ->
    take_loop q keys i rest idsv values err =
    (firstn i idsv ++ map (fun k => fst (KeyToID k)) rest,
     keys,
     firstn i values ++
       map (fun k => store_get (entries (db q)) (joinKey (ns q) k)) rest,
     match rest with
     | [] => err
     | _ :: _ => snd (KeyToID (List.last rest []))
     end).
Proof.
  induction rest as [|k rest IH]; intros i idsv values err Hi Hv Hf.
  - simpl in *. rewrite !app_nil_r, !firstn_all2 by lia. reflexivity.
  - inversion Hf as [|? ? Hk Hf']; subst. simpl in Hi, Hv.
    cbn [take_loop]. unfold levigo_Get. rewrite Hk.
    destruct (KeyToID k) as [id e'] eqn:E.
    rewrite IH; [|rewrite length_insert; lia|rewrite length_insert; lia|assumption].
    rewrite (take_S_r (<[i:=id]> idsv) i id) by (apply list_lookup_insert_eq; lia).
    rewrite (take_S_r (<[i:=store_get (entries (db q)) (joinKey (ns q) k)]> values) i
               (store_get (entries (db q)) (joinKey (ns q) k)))
      by (apply list_lookup_insert_eq; lia).
    rewrite !take_insert_ge by lia.
    rewrite <- !app_assoc. simpl. rewrite E. simpl.
    f_equal. destruct rest; simpl; [rewrite E|]; reflexivity.
Qed.

(** The loop of [take] when a read fails: everything is dropped. *)
Lemma take_loop_fault (q : Queue) (keys : list key) (k : key) (post : list key)
    (e : error) :
  forall (pre : list key) (i : nat) (idsv : list ID)
         (values : list (option value)) (err : option error),
    Forall (fun k' => read_fault (db q) (joinKey (ns q) k') = None) pre ->
    read_fault (db q) (joinKey (ns q) k) = Some e ->
    take_loop q keys i (pre ++ k :: post) idsv values err = ([], [], [], Some e).
Proof.
  induction pre as [|k0 pre IH]; intros i idsv values err Hf Hk.
  - simpl. unfold levigo_Get. rewrite Hk. reflexivity.
  - inversion Hf as [|? ? Hk0 Hf']; subst.
    simpl. unfold levigo_Get. rewrite Hk0.
    destruct (KeyToID k0) as [id e']. apply IH; assumption.
Qed.

(** C2, as the code has it.  [take] pops the [k] smallest ids of the heap.  If
    the read of one of their values fails, [take] returns that error (the
    first one) with [nil] ids, keys and values, and the queue is left as
    [awaitKeys] left it: the popped ids are out of the heap and of the
    channel, and are not put back. *)
Theorem take_fetch_failure (n t : Z) (sch : schedule) (now : Z) (q : Queue) :
  signals_covered q ->
  exists (k : nat) (q' : Queue) (now' : Z),
    awaitKeys n t sch now q = Returns (map ID_Key (firstn k (ids q)), q', now') /\
    ids q' = skipn k (ids q) /\
    c q' = (c q - Z.of_nat k)%Z /\
    forall pre key post e,
      map ID_Key (firstn k (ids q)) = pre ++ key :: post ->
      Forall (fun k' => read_fault (db q) (joinKey (ns q) k') = None) pre ->
      read_fault (db q) (joinKey (ns q) key) = Some e ->
      take n t sch now q = Returns (([], [], [], Some e), q', now').
Proof.
  intros Hc.
  destruct (awaitKeys_spec n t sch now q Hc) as (k & now' & E & _).
  exists k, (set_c (set_ids q (skipn k (ids q))) (c q - Z.of_nat k)), now'.
  split; [exact E|]. split; [reflexivity|]. split; [reflexivity|].
  intros pre key post e Hkeys Hpre Hkey.
  unfold take. rewrite E. simpl. rewrite Hkeys.
  erewrite (take_loop_fault _ _ key post e pre); [reflexivity|exact Hpre|exact Hkey].
Qed.

Lemma take_fetch_failure_witness :
  signals_covered q_unreadable /\
  exists (k : nat) (q' : Queue) (now' : Z),
    awaitKeys 1 10 prompt 0 q_unreadable =
      Returns (map ID_Key (firstn k (ids q_unreadable)), q', now') /\
    ids q' = skipn k (ids q_unreadable).
Proof.
  assert (Hc : signals_covered q_unreadable) by (unfold signals_covered; simpl; lia).
  split; [exact Hc|].
  destruct (take_fetch_failure 1 10 prompt 0 q_unreadable Hc)
    as (k & q' & now' & E & Hids & _).
  exists k, q', now'. split; assumption.
Defined.

(** Counterexample to C2 as stated: the read of the value of id 1 fails; the
    call returns the error with no id, and id 1 is not in the heap any more. *)
Lemma take_drops_popped_id :
  In 1%N (ids q_unreadable) /\
  exists q' now',
    take 1 10 prompt 0 q_unreadable = Returns (([], [], [], Some (IOError 5)), q', now') /\
    ~ In 1%N (ids q').
Proof.
  split; [left; reflexivity|].
  eexists _, _. split; [vm_compute; reflexivity|].
  simpl. tauto.
Qed.

Lemma last_decodes (l : list ID) :
  l <> [] -> snd (KeyToID (List.last (map ID_Key l) [])) = None.
Proof.
  induction l as [|id l IH]; [congruence|]. intros _.
  destruct l as [|id' l].
  - cbn [map List.last]. rewrite KeyToID_Key. reflexivity.
  - change (snd (KeyToID (List.last (map ID_Key (id' :: l)) [])) = None).
    apply IH. discriminate.
Qed.

Lemma first_fault (P : key -> option error) (l : list key) :
  Forall (fun k => P k = None) l \/
  exists pre k post e,
    l = pre ++ k :: post /\ Forall (fun k' => P k' = None) pre /\ P k = Some e.
Proof.
  induction l as [|k l IH].
  - left. constructor.
  - destruct (P k) as [e|] eqn:E.
    + right. exists [], k, l, e. repeat split; [constructor|exact E].
    + destruct IH as [IH|(pre & k' & post & e & -> & Hpre & Hk')].
      * left. constructor; assumption.
      * right. exists (k :: pre), k', post, e.
        repeat split; [constructor; assumption|exact Hk'].
Qed.

(** What a call of [take] does when the channel never promises more than the
    heap holds.  It returns; it has popped the [k] smallest ids, for some [k]
    within the units of [q.c]; if the store answers their reads it returns
    them all without error; and an error it returns is a failed read of one
    of them. *)
Lemma take_spec (n t : Z) (sch : schedule) (now : Z) (q : Queue) :
  signals_covered q ->
  exists (k : nat) (now' : Z) (r : taken),
    take n t sch now q =
      Returns (r, set_c (set_ids q (skipn k (ids q))) (c q - Z.of_nat k), now') /\
    (Z.of_nat k <= c q)%Z /\
    (forall j, 0 < j < k -> Z.of_nat j <> n) /\
    ((0 < k /\ Z.of_nat k = n /\ now' = (now + elapsed sch 0 k)%Z) \/
     (now' = Z.max (now + elapsed sch 0 (S k)) (expiry now t) /\
      (0 < k -> Z.of_nat k <> n) /\
      ((c q - Z.of_nat k)%Z = 0%Z \/
       ((expiry now t <= now + elapsed sch 0 (S k))%Z /\
        prefer_cancel (sch k) = true)))) /\
    (reads_ok q (firstn k (ids q)) -> r = taken_of q (firstn k (ids q))) /\
    (forall e, snd r = Some e ->
               exists id, In id (firstn k (ids q)) /\
                          read_fault (db q) (joinKey (ns q) (ID_Key id)) = Some e).
Proof.
  intros Hc.
  destruct (awaitKeys_spec n t sch now q Hc) as (k & now' & E & Hk & Hj & Ht).
  set (l := firstn k (ids q)) in *.
  set (q' := set_c (set_ids q (skipn k (ids q))) (c q - Z.of_nat k)) in *.
  exists k, now',
    (take_loop q' (map ID_Key l) 0 (map ID_Key l)
       (replicate (length (map ID_Key l)) 0%N)
       (replicate (length (map ID_Key l)) None) None).
  split; [unfold take; rewrite E; reflexivity|].
  split; [exact Hk|]. split; [exact Hj|]. split; [exact Ht|].
  assert (Hok : Forall (fun key => read_fault (db q') (joinKey (ns q') key) = None)
                  (map ID_Key l) ->
                take_loop q' (map ID_Key l) 0 (map ID_Key l)
                  (replicate (length (map ID_Key l)) 0%N)
                  (replicate (length (map ID_Key l)) None) None = taken_of q l).
  { intros Hf. rewrite take_loop_ok; [|rewrite length_replicate; reflexivity
                                       |rewrite length_replicate; reflexivity|exact Hf].
    unfold taken_of, q'. cbn [ns db set_c set_ids].
    rewrite !firstn_O, !map_map. cbn [app].
    assert (Herr : match map ID_Key l with
                   | [] => None
                   | _ :: _ => snd (KeyToID (List.last (map ID_Key l) []))
                   end = None).
    { destruct l as [|id l']; [reflexivity|].
      apply (last_decodes (id :: l')). discriminate. }
    rewrite Herr. reflexivity. }
  split.
  - intros Hr. apply Hok. apply List.Forall_forall. intros key Hin.
    apply in_map_iff in Hin as (id & <- & Hin). apply Hr. exact Hin.
  - intros e He.
    destruct (first_fault (fun key => read_fault (db q') (joinKey (ns q') key))
                (map ID_Key l)) as [Hf|(pre & key & post & e' & Hl & Hpre & Hkey)].
    + rewrite (Hok Hf) in He. discriminate.
    + assert (Hin : In key (map ID_Key l)) by (rewrite Hl; apply in_elt).
      apply in_map_iff in Hin as (id & <- & Hin).
      rewrite Hl in He at 2.
      rewrite (take_loop_fault q' (map ID_Key l) (ID_Key id) post e' pre) in He
        by assumption.
      injection He as <-. exists id. split; [exact Hin|exact Hkey].
Qed.

(** [take] on a store that answers every read: it returns, without error, the
    [k] smallest ids of the heap with their keys and values, and leaves the
    others in the heap. *)
Lemma take_ok (n t : Z) (sch : schedule) (now : Z) (q : Queue) :
  signals_covered q ->
  (forall k, read_fault (db q) k = None) ->
  exists (k : nat) (now' : Z),
    take n t sch now q =
      Returns (taken_of q (firstn k (ids q)),
               set_c (set_ids q (skipn k (ids q))) (c q - Z.of_nat k), now') /\
    (Z.of_nat k <= c q)%Z /\
    (forall j, 0 < j < k -> Z.of_nat j <> n) /\
    ((0 < k /\ Z.of_nat k = n /\ now' = (now + elapsed sch 0 k)%Z) \/
     (now' = Z.max (now + elapsed sch 0 (S k)) (expiry now t) /\
      (0 < k -> Z.of_nat k <> n) /\
      ((c q - Z.of_nat k)%Z = 0%Z \/
       ((expiry now t <= now + elapsed sch 0 (S k))%Z /\
        prefer_cancel (sch k) = true)))).
Proof.
  intros Hc Hr.
  destruct (take_spec n t sch now q Hc) as (k & now' & r & E & Hk & Hj & Ht & Hok & _).
  exists k, now'. rewrite E, Hok; [repeat split; assumption|].
  intros id _. apply Hr.
Qed.



Lemma queue_untouched (q : Queue) :
  set_c (set_ids q (skipn 0 (ids q))) (c q - Z.of_nat 0) = q.
Proof.
  destruct q as [n d h sy cq cap]. unfold set_c, set_ids. simpl.
  rewrite Z.sub_0_r. reflexivity.
Qed.

(** What the code keeps of a [take] that does not block.  [take n 0] returns
    after no more time than the scheduler took for its own turns: it never
    sleeps.  What it returns is some of the smallest ids that are there, all
    of those it popped if the store answers their reads; how many of the
    available ones it pops is not settled here.  On a queue with nothing to
    take it returns the empty result and [nil].  [awaitKey 0] does not let
    any time pass at all: it returns the smallest id if there is one, and
    [nil] otherwise. *)
Theorem take_zero_timeout (n : Z) (sch : schedule) (now : Z) (q : Queue) :
  signals_covered q ->
  (exists (k m : nat) (now' : Z) (r : taken),
      take n 0 sch now q =
        Returns (r, set_c (set_ids q (skipn k (ids q))) (c q - Z.of_nat k), now') /\
      (Z.of_nat k <= c q)%Z /\ m <= S k /\
      now' = (now + elapsed sch 0 m)%Z /\
      (reads_ok q (firstn k (ids q)) -> r = taken_of q (firstn k (ids q)))) /\
  (c q = 0%Z ->
   take n 0 sch now q = Returns (([], [], [], None), q, (now + elapsed sch 0 1)%Z)) /\
  awaitKey 0 sch now q =
    Returns (if (0 <? c q)%Z
             then (option_map ID_Key (head (ids q)),
                   set_c (set_ids q (tl (ids q))) (c q - 1), now)
             else (None, q, now)) /\
  ((0 < c q)%Z -> head (ids q) <> None).
Proof.
  intros Hc.
  destruct (take_spec n 0 sch now q Hc) as (k & now' & r & E & Hk & _ & Hw & Hok & _).
  assert (Hnow : exists m, m <= S k /\ now' = (now + elapsed sch 0 m)%Z).
  { destruct Hw as [(_ & _ & Hnow)|(Hnow & _)].
    - exists k. split; [lia|exact Hnow].
    - exists (S k). split; [lia|]. rewrite Hnow. unfold expiry.
      pose proof (elapsed_nonneg sch (S k) 0). lia. }
  split; [|split; [|split]].
  - destruct Hnow as (m & Hm & Hnow). exists k, m, now', r.
    repeat split; assumption.
  - intros H0. assert (k = 0) by (destruct Hc; lia). subst k.
    rewrite E, Hok by (intros id []). cbn [firstn taken_of map].
    rewrite queue_untouched.
    destruct Hw as [(Hk0 & _)|(Hnow' & _)]; [lia|].
    rewrite Hnow'. unfold expiry.
    pose proof (elapsed_nonneg sch 1 0). do 2 f_equal. lia.
  - unfold awaitKey. destruct (0 <? c q)%Z eqn:Hpos; [|reflexivity].
    apply Z.ltb_lt in Hpos. destruct Hc as [_ Hc].
    destruct (ids q) as [|id h']; [simpl in Hc; lia|reflexivity].
  - intros Hpos. destruct Hc as [_ Hc].
    destruct (ids q) as [|id h']; [simpl in Hc; lia|discriminate].
Qed.

Lemma take_zero_timeout_witness :
  signals_covered q_one /\
  awaitKey 0 prompt 0 q_one =
    Returns (Some (ID_Key 1%N), set_c (set_ids q_one []) 0, 0%Z).
Proof.
  assert (Hc : signals_covered q_one) by (unfold signals_covered; simpl; lia).
  split; [exact Hc|].
  destruct (take_zero_timeout 1 prompt 0 q_one Hc) as (_ & _ & E & _).
  rewrite E. reflexivity.
Defined.

(** How many of the items that are there [take n 0] returns is up to the
    [select]: with [cancel] closed from the start, its second turn may pick
    [cancel] while [q.c] still has a unit. *)
Lemma take_zero_timeout_may_return_fewer :
  take 2 0 cancel_second 0 q_two =
    Returns (([1%N], [ID_Key 1%N], [Some item1], None),
             set_c (set_ids q_two [2%N]) 1, 0%Z).
Proof. vm_compute. reflexivity. Qed.

(** With [t = 0] the timer closes [cancel] at once, and the [select] of
    [awaitKeys] has no [default] and no order between its cases: when its
    first turn picks [cancel], [take n 0] returns the empty result and leaves
    in the queue whatever was available. *)
Lemma take_zero_timeout_cancel_wins (n : Z) (sch : schedule) (now : Z) (q : Queue) :
  prefer_cancel (sch 0) = true ->
  take n 0 sch now q =
    Returns (([], [], [], None), q, (now + Z.max 0 (delay (sch 0%nat)))%Z).
Proof.
  intros Hp. unfold take, awaitKeys.
  assert (E : awaitKeys_loop n (expiry now 0) sch 0 (ids q) (c q) now [] =
              Returns ([], ids q, c q, (now + Z.max 0 (delay (sch 0%nat)))%Z)).
  { assert (Hcl : (expiry now 0 <=? now + Z.max 0 (delay (sch 0%nat)))%Z = true)
      by (apply Z.leb_le; unfold expiry; lia).
    assert (Hmax : Z.max (now + Z.max 0 (delay (sch 0%nat))) (expiry now 0) =
                   (now + Z.max 0 (delay (sch 0%nat)))%Z)
      by (unfold expiry; lia).
    destruct (ids q); cbn [awaitKeys_loop];
      rewrite Hcl, Hp, Hmax; cbn [andb negb]; rewrite andb_false_r; reflexivity. }
  rewrite E. cbn [obind length replicate take_loop].
  destruct q; reflexivity.
Qed.

(** C7 at the failing input.  The queue of namespace "a" holds one item, with
    its unit in the channel.  [take 1 0], when the [select] of [awaitKeys]
    picks [cancel] over the unit, returns the empty result with a [nil]
    error and leaves the item in the queue: it does not return the item that
    is available.  [awaitKey 0], whose [select] sets the receive against
    [default], returns that item under the same scheduler.  On two items,
    [take 2 0] may return the first and leave the second. *)
Theorem take_zero_timeout_skips_available_item :
  (0 < c q_one)%Z /\ ids q_one = [1%N] /\
  take 1 0 cancel_first 0 q_one = Returns (([], [], [], None), q_one, 0%Z) /\
  awaitKey 0 cancel_first 0 q_one =
    Returns (Some (ID_Key 1%N), set_c (set_ids q_one []) 0, 0%Z) /\
  take 2 0 cancel_second 0 q_two =
    Returns (([1%N], [ID_Key 1%N], [Some item1], None),
             set_c (set_ids q_two [2%N]) 1, 0%Z).
Proof.
  split; [reflexivity|]. split; [reflexivity|]. split; [|split].
  - rewrite (take_zero_timeout_cancel_wins 1 cancel_first 0 q_one eq_refl).
    reflexivity.
  - vm_compute. reflexivity.
  - vm_compute. reflexivity.
Qed.

(** [take n t] with [n >= 1] on a store that answers every read: the three
    slices have the same length, at most [n]; [ids[i]] is decoded from
    [keys[i]] and [values[i]] is what the store holds under the key of the
    namespace made from [keys[i]]. *)
Lemma take_result_shape (n t : Z) (sch : schedule) (now : Z) (q : Queue) :
  (1 <= n)%Z ->
  signals_covered q ->
  (forall k, read_fault (db q) k = None) ->
  exists idsv keys values q' now',
    take n t sch now q = Returns ((idsv, keys, values, None), q', now') /\
    length idsv = length keys /\ length values = length keys /\
    (Z.of_nat (length keys) <= n)%Z /\
    forall i key,
      keys !! i = Some key ->
      idsv !! i = Some (fst (KeyToID key)) /\
      values !! i = Some (store_get (entries (db q)) (joinKey (ns q) key)).
Proof.
  intros Hn Hc Hr.
  destruct (take_ok n t sch now q Hc Hr) as (k & now' & E & Hk & Hj & _).
  eexists _, _, _, _, _. split; [exact E|].
  rewrite !length_map. split; [reflexivity|]. split; [reflexivity|]. split.
  - assert (Hl : length (firstn k (ids q)) <= k) by apply firstn_le_length.
    destruct (Nat.le_gt_cases k (Z.to_nat n)) as [Hle|Hgt]; [lia|].
    exfalso. apply (Hj (Z.to_nat n)); lia.
  - intros i key Hi. rewrite !list_lookup_fmap in *.
    destruct (firstn k (ids q) !! i) as [id|]; [|discriminate].
    simpl in *. injection Hi as <-. split; reflexivity.
Qed.

(** C9 at the failing input.  [take 0 10] on a queue holding one item returns,
    with a [nil] error, one id, one key and one value: more than [n = 0]. *)
Theorem take_zero_count_returns_an_item :
  take 0 10 prompt 0 q_one =
    Returns (([1%N], [ID_Key 1%N], [Some item1], None),
             set_c (set_ids q_one []) 0, 10%Z).
Proof. vm_compute. reflexivity. Qed.

(** ** Namespaces that share one store *)

Lemma bytes_compare_antisym (a b : key) :
  bytes_compare b a = CompOpp (bytes_compare a b).
Proof.
  revert b. induction a as [|x a IH]; intros [|y b]; simpl; try reflexivity.
  unfold byte_compare. rewrite (N.compare_antisym (Byte.to_N x) (Byte.to_N y)).
  destruct (Byte.to_N x ?= Byte.to_N y)%N; simpl; auto.
Qed.

Lemma bytes_gt_ltb (a b : key) : bytes_compare a b = Gt -> bytes_ltb b a = true.
Proof.
  intros H. unfold bytes_ltb. rewrite bytes_compare_antisym, H. reflexivity.
Qed.

(** Writing a key keeps the store in key order. *)
Lemma store_put_ascending (k : key) (v : value) (s : store) :
  ascending s = true -> ascending (store_put k v s) = true.
Proof.
  induction s as [|[k0 v0] r IH]; intros Hasc; [reflexivity|].
  cbn [store_put]. destruct (bytes_compare k k0) eqn:E.
  - apply bytes_compare_eq in E. subst k0. exact Hasc.
  - change (bytes_ltb k k0 && ascending ((k0, v0) :: r) = true).
    unfold bytes_ltb at 1. rewrite E, Hasc. reflexivity.
  - specialize (IH (ascending_tail _ _ Hasc)).
    apply bytes_gt_ltb in E.
    destruct r as [|[k1 v1] r'].
    + simpl. rewrite E. reflexivity.
    + cbn [store_put] in *. simpl in Hasc. apply andb_prop in Hasc as [H01 _].
      destruct (bytes_compare k k1);
        match goal with
        | |- ascending (_ :: ?x :: ?l) = true =>
            change (ascending (x :: l) = true) in IH
        end; cbn [ascending]; cbn [ascending] in IH; rewrite ?E, ?H01; simpl; exact IH.
Qed.

Lemma ascending_filter (P : key * value -> bool) (s : store) :
  ascending s = true -> ascending (List.filter P s) = true.
Proof.
  induction s as [|[k v] r IH]; intros Hasc; [reflexivity|].
  pose proof (ascending_head k v r Hasc) as Hhd.
  specialize (IH (ascending_tail _ _ Hasc)).
  simpl. destruct (P (k, v)); [|exact IH].
  apply ascending_cons; [|exact IH].
  destruct (List.filter P r) as [|[k' v'] r'] eqn:E; [exact I|].
  assert (Hin : In (k', v') (List.filter P r)) by (rewrite E; left; reflexivity).
  apply filter_In in Hin as [Hin _].
  rewrite List.Forall_forall in Hhd. exact (Hhd _ Hin).
Qed.

(** A batch keeps the store in key order. *)
Lemma db_Write_ascending (d : LevelDB) (b : WriteBatch) :
  ascending (entries d) = true ->
  ascending (entries (fst (db_Write d b))) = true.
Proof.
  unfold db_Write. destruct (write_fault d); [intros H; exact H|].
  cbn [fst set_entries entries]. generalize (entries d).
  induction b as [|o b IH]; intros s Hs; [exact Hs|].
  simpl. apply IH. destruct o as [k v|k]; simpl.
  - apply store_put_ascending. exact Hs.
  - apply ascending_filter. exact Hs.
Qed.

(** The loop of [take] reads the store at the keys of its namespace only. *)
Lemma take_loop_same_reads (q q' : Queue) (keys : list key) :
  ns q' = ns q ->
  (forall k, levigo_Get (db q') (joinKey (ns q) k) = levigo_Get (db q) (joinKey (ns q) k)) ->
  forall rest i idsv values err,
    take_loop q' keys i rest idsv values err = take_loop q keys i rest idsv values err.
Proof.
  intros Hns Hget. induction rest as [|k rest IH]; intros i idsv values err.
  - reflexivity.
  - cbn [take_loop]. rewrite Hns, Hget.
    destruct (levigo_Get (db q) (joinKey (ns q) k)) as [v [e|]]; [reflexivity|].
    destruct (KeyToID k) as [id e']. apply IH.
Qed.

Lemma take_over (d' : LevelDB) (n t : Z) (sch : schedule) (now : Z) (q : Queue) :
  (forall k, levigo_Get d' (joinKey (ns q) k) = levigo_Get (db q) (joinKey (ns q) k)) ->
  take n t sch now (set_db q d') = omap (taken_over d') (take n t sch now q).
Proof.
  intros Hget. unfold take, awaitKeys. cbn [ids c set_db].
  destruct (awaitKeys_loop n (expiry now t) sch 0 (ids q) (c q) now [])
    as [[[[b h] cq] now']| |]; [|reflexivity|reflexivity].
  cbn [obind omap taken_over]. f_equal. f_equal. f_equal.
  apply take_loop_same_reads; [reflexivity|]. exact Hget.
Qed.

(** The loop of [init] does not look at the handle of the queue. *)
Lemma init_loop_over (d' : LevelDB) (it : Iterator) :
  forall q, init_loop (set_db q d') it = omap (init_over d') (init_loop q it).
Proof.
  induction it as [|[kk v] it IH]; intros q; [reflexivity|].
  cbn [init_loop]. cbn [ns set_db].
  destruct (splitKey (ns q) kk) as [k|]; [|reflexivity].
  destruct (KeyToID k) as [id [err|]]; [reflexivity|].
  unfold send. cbn [c c_cap set_ids set_db ids].
  destruct (c q <? c_cap q)%Z; [|reflexivity].
  cbn [obind]. apply (IH (set_c (set_ids q (PushID id (ids q))) (c q + 1))).
Qed.

(** [init] stops at the end of the range: what follows does not matter. *)
Lemma init_loop_rest (range rest rest' : Iterator) :
  forall q,
    Forall (fun kv => has_prefix (fst kv) (ns q) = true) range ->
    range_end (ns q) rest -> range_end (ns q) rest' ->
    init_loop q (range ++ rest) = init_loop q (range ++ rest').
Proof.
  induction range as [|[kk v] range IH]; intros q Hr He He'.
  - simpl. unfold range_end in *.
    destruct rest as [|[k1 v1] rest], rest' as [|[k2 v2] rest']; simpl;
      unfold splitKey; rewrite ?He, ?He'; reflexivity.
  - inversion Hr as [|? ? Hk Hr']; subst. simpl in Hk.
    simpl. unfold splitKey. rewrite Hk.
    destruct (KeyToID _) as [id [err|]]; [reflexivity|].
    unfold send. simpl. destruct (c q <? c_cap q)%Z; [|reflexivity].
    simpl. apply IH; assumption.
Qed.

Lemma prefix_range_put_other (d : LevelDB) (p kk : key) (v : value) :
  has_prefix kk p = false ->
  prefix_range (set_entries d (store_put kk v (entries d))) p = prefix_range d p.
Proof.
  intros H. unfold prefix_range. simpl.
  apply (filter_store_put (fun k => has_prefix k p)). exact H.
Qed.

Lemma NewQueue_over (d d' : LevelDB) (b : key) :
  ascending (entries d) = true ->
  ascending (entries d') = true ->
  prefix_range d' b = prefix_range d b ->
  NewQueue d' b = omap (built_over d') (NewQueue d b).
Proof.
  intros Ha Ha' Hrange.
  destruct (seek_lands_on_range b (entries d) Ha) as (rest & Hs & He).
  destruct (seek_lands_on_range b (entries d') Ha') as (rest' & Hs' & He').
  fold (prefix_range d b) in Hs. fold (prefix_range d' b) in Hs'.
  unfold NewQueue, init. rewrite !seek_ns_from. cbn [ns db].
  rewrite Hs, Hs', Hrange.
  change (mkQueue b d' [] false 0 MaxQueue)
    with (set_db (mkQueue b d [] false 0 MaxQueue) d').
  rewrite init_loop_over.
  rewrite (init_loop_rest (prefix_range d b) rest' rest);
    [|rewrite <- Hrange; apply prefix_range_Forall|exact He'|exact He].
  destruct (init_loop _ (prefix_range d b ++ rest)) as [[q1 [err|]]| |]; reflexivity.
Qed.

(** C3, as the code has it.  Let [a] and [b] be namespaces neither of which is
    a byte-prefix of the other, and let an item be put under [a].  Then
    nothing changes for [b]: [ForEach] shows every visitor the same entries,
    [Get] answers the same for every key, [take] returns the same results, and
    a queue built on [b] recovers the same ids. *)
Theorem unrelated_namespaces_isolated (a b : key) (d : LevelDB) (k : key) (v : value)
    (qa' : goleveldb.Bucket) :
  unrelated a b ->
  goleveldb.Bucket_Batch (goleveldb.mkBucket d a)
    (fun bt => goleveldb.Batch_Put bt k v) = (qa', None) ->
  (forall (S : Type) (fn : goleveldb.visitor S) (st : S),
      goleveldb.ForEach (goleveldb.mkBucket (goleveldb.db qa') b) fn st =
      goleveldb.ForEach (goleveldb.mkBucket d b) fn st) /\
  (forall k',
      goleveldb.Get (goleveldb.mkBucket (goleveldb.db qa') b) k' =
      goleveldb.Get (goleveldb.mkBucket d b) k') /\
  (forall (q : Queue) n t sch now,
      ns q = b -> db q = d ->
      take n t sch now (set_db q (goleveldb.db qa')) =
      omap (taken_over (goleveldb.db qa')) (take n t sch now q)) /\
  (ascending (entries d) = true ->
   NewQueue (goleveldb.db qa') b =
   omap (built_over (goleveldb.db qa')) (NewQueue d b)).
Proof.
  intros Hab Hput.
  rewrite Batch_Put_written in Hput. unfold db_Write in Hput. cbn [goleveldb.db goleveldb.ns] in Hput.
  destruct (write_fault d) eqn:Hw; [discriminate|].
  injection Hput as <-. cbn [goleveldb.db].
  pose proof (unrelated_no_prefix a b k Hab) as Hnp.
  assert (Hget : forall k', store_get (store_put (a ++ k) v (entries d)) (b ++ k') =
                            store_get (entries d) (b ++ k')).
  { intros k'. rewrite store_get_put, bytes_eqb_neq; [reflexivity|].
    apply unrelated_keys_differ. exact Hab. }
  split; [|split; [|split]].
  - intros S fn st. rewrite !ForEach_visit. cbn [goleveldb.db goleveldb.ns].
    rewrite prefix_range_put_other by exact Hnp. reflexivity.
  - intros k'. unfold goleveldb.Get, goleveldb_Get, goleveldb.append_ns.
    cbn [goleveldb.db goleveldb.ns set_entries read_fault entries].
    rewrite Hget. reflexivity.
  - intros q n t sch now Hns Hdb. apply take_over.
    intros k'. unfold levigo_Get, joinKey. rewrite Hns, Hdb.
    cbn [set_entries read_fault entries]. rewrite Hget. reflexivity.
  - intros Hasc. apply NewQueue_over.
    + exact Hasc.
    + cbn [set_entries entries]. apply store_put_ascending. exact Hasc.
    + apply prefix_range_put_other. exact Hnp.
Qed.

Lemma unrelated_namespaces_isolated_witness :
  unrelated ns_a ns_b /\
  goleveldb.Bucket_Batch (goleveldb.mkBucket one_item ns_a)
    (fun bt => goleveldb.Batch_Put bt (ID_Key 2%N) item2) =
    (goleveldb.mkBucket
       (healthy [(ns_a ++ ID_Key 1%N, item1); (ns_a ++ ID_Key 2%N, item2)]) ns_a,
     None) /\
  forall k',
    goleveldb.Get
      (goleveldb.mkBucket
         (healthy [(ns_a ++ ID_Key 1%N, item1); (ns_a ++ ID_Key 2%N, item2)]) ns_b) k' =
    goleveldb.Get (goleveldb.mkBucket one_item ns_b) k'.
Proof.
  assert (Hu : unrelated ns_a ns_b) by (split; reflexivity).
  assert (Hp : goleveldb.Bucket_Batch (goleveldb.mkBucket one_item ns_a)
                 (fun bt => goleveldb.Batch_Put bt (ID_Key 2%N) item2) =
               (goleveldb.mkBucket
                  (healthy [(ns_a ++ ID_Key 1%N, item1); (ns_a ++ ID_Key 2%N, item2)])
                  ns_a, None)) by (vm_compute; reflexivity).
  split; [exact Hu|]. split; [exact Hp|].
  apply (unrelated_namespaces_isolated ns_a ns_b one_item (ID_Key 2%N) item2 _ Hu Hp).
Defined.

(** Counterexample to C3 as stated: "a" is a proper byte-prefix of "ab".  An
    item put under "ab" on an empty store is shown by [ForEach] on "a", and
    [Get] on "a" returns it. *)
Lemma prefix_namespace_leaks :
  ns_ab <> ns_a /\
  goleveldb.ForEach (goleveldb.mkBucket (healthy []) ns_a) collect [] = Returns ([], None) /\
  exists qab',
    goleveldb.Bucket_Batch (goleveldb.mkBucket (healthy []) ns_ab)
      (fun bt => goleveldb.Batch_Put bt (ID_Key 1%N) item1) = (qab', None) /\
    goleveldb.ForEach (goleveldb.mkBucket (goleveldb.db qab') ns_a) collect [] =
      Returns ([(ns_b ++ ID_Key 1%N, item1)], None) /\
    goleveldb.Get (goleveldb.mkBucket (goleveldb.db qab') ns_a) (ns_b ++ ID_Key 1%N) =
      (Some item1, None).
Proof.
  split; [discriminate|]. split; [reflexivity|].
  eexists. split; [vm_compute; reflexivity|].
  split; vm_compute; reflexivity.
Qed.

(** With keys made by concatenation, the same item keeps a queue from being
    built on "a": its key is in the range of "a" and is not an id there. *)
Lemma prefix_namespace_breaks_init :
  NewQueue (healthy []) ns_a =
    Returns (Some (mkQueue ns_a (healthy []) [] false 0 MaxQueue), None) /\
  NewQueue (healthy [(ns_ab ++ ID_Key 1%N, item1)]) ns_a =
    Returns (None, Some DecodeError).
Proof. split; vm_compute; reflexivity. Qed.

(** ** Goroutines: signals and the heap *)

Lemma PushID_length (id : ID) (h : IDHeap) : length (PushID id h) = S (length h).
Proof.
  induction h as [|x r IH]; simpl; [reflexivity|].
  destruct (id <=? x)%N; simpl; [reflexivity|]. rewrite IH. reflexivity.
Qed.

Lemma in_flight_range (p : pc) : (0 <= in_flight p <= 1)%Z.
Proof. destruct p; simpl; lia. Qed.

Lemma total_in_flight_nonneg (ps : list pc) : (0 <= total_in_flight ps)%Z.
Proof.
  induction ps as [|p ps IH]; simpl; [lia|].
  pose proof (in_flight_range p). lia.
Qed.

Lemma total_in_flight_lookup (ps : list pc) (i : nat) (p : pc) :
  ps !! i = Some p -> (in_flight p <= total_in_flight ps)%Z.
Proof.
  revert i. induction ps as [|p0 ps IH]; intros [|i] H; simpl in *; try discriminate.
  - injection H as ->. pose proof (total_in_flight_nonneg ps). lia.
  - specialize (IH i H). pose proof (in_flight_range p0). lia.
Qed.

(** Moving one goroutine changes the total by what it held and holds. *)
Lemma total_in_flight_insert (ps : list pc) (i : nat) (p p' : pc) :
  ps !! i = Some p ->
  total_in_flight (<[i := p']> ps) =
  (total_in_flight ps - in_flight p + in_flight p')%Z.
Proof.
  revert i. induction ps as [|p0 ps IH]; intros [|i] H; simpl in *; try discriminate.
  - injection H as ->. lia.
  - rewrite (IH i H). lia.
Qed.

Lemma not_crashed_insert (ps : list pc) (i : nat) (p' : pc) :
  p' <> Crashed ->
  (forall j, ps !! j <> Some Crashed) ->
  forall j, <[i := p']> ps !! j <> Some Crashed.
Proof.
  intros Hp Hps j Hj.
  apply list_lookup_insert_Some in Hj as [(_ & E & _)|(_ & Hj)].
  - congruence.
  - exact (Hps j Hj).
Qed.

Lemma after_pop_in_flight (n : Z) (b : list key) :
  in_flight (after_pop n b) = 0%Z /\ after_pop n b <> Crashed.
Proof. unfold after_pop. destruct (_ =? _)%Z; split; simpl; congruence. Qed.

Ltac balance_step :=
  match goal with
  | Hat : at_pc _ _ _ |- _ =>
      unfold at_pc in Hat;
      let Hle := fresh "Hle" in
      pose proof (total_in_flight_lookup _ _ _ Hat) as Hle;
      unfold balanced, goto, with_ids, with_c, with_mutex; cbn [s_c s_ids s_pcs];
      rewrite ?(total_in_flight_insert _ _ _ _ Hat), ?PushID_length;
      cbn [in_flight] in *;
      split; [lia|]; split; [lia|apply not_crashed_insert; [discriminate|assumption]]
  end.

Lemma start_balanced (name : key) (cap : Z) (k : nat) : balanced (start name cap k).
Proof.
  assert (Hz : total_in_flight (replicate k Idle) = 0%Z).
  { induction k as [|k IH]; simpl; [reflexivity|]. rewrite IH. reflexivity. }
  unfold balanced, start. cbn [s_c s_ids s_pcs]. split; [lia|]. split.
  - rewrite Hz. reflexivity.
  - intros i H. apply lookup_replicate in H as [H _]. discriminate.
Qed.

Lemma step_balanced (s s' : shared) : balanced s -> step s s' -> balanced s'.
Proof.
  intros (Hc & Hbal & Hok) Hstep.
  destruct Hstep; try solve [balance_step].
  - (* key_pop *)
    unfold at_pc in H.
    pose proof (total_in_flight_lookup _ _ _ H) as Hle.
    unfold balanced, goto, with_ids, with_c, with_mutex. cbn [s_c s_ids s_pcs].
    rewrite (total_in_flight_insert _ _ _ _ H).
    destruct (s_ids s) as [|x r]; [discriminate|].
    injection H0 as <- <-. cbn [in_flight] in *. simpl in Hbal.
    split; [lia|]. split; [lia|]. apply not_crashed_insert; [discriminate|assumption].
  - (* key_pop_empty *)
    unfold at_pc in H.
    pose proof (total_in_flight_lookup _ _ _ H) as Hle. cbn [in_flight] in Hle.
    exfalso. destruct (s_ids s); [|discriminate]. simpl in Hbal. lia.
  - (* await_pop *)
    unfold at_pc in H.
    pose proof (total_in_flight_lookup _ _ _ H) as Hle.
    destruct (after_pop_in_flight n (b ++ [ID_Key id])) as (Hf & Hnc).
    unfold balanced, goto, with_ids, with_c, with_mutex. cbn [s_c s_ids s_pcs].
    rewrite (total_in_flight_insert _ _ _ _ H), Hf.
    destruct (s_ids s) as [|x r]; [discriminate|].
    injection H0 as <- <-. cbn [in_flight] in *. simpl in Hbal.
    split; [lia|]. split; [lia|]. apply not_crashed_insert; assumption.
  - (* await_pop_empty *)
    unfold at_pc in H.
    pose proof (total_in_flight_lookup _ _ _ H) as Hle. cbn [in_flight] in Hle.
    exfalso. destruct (s_ids s); [|discriminate]. simpl in Hbal. lia.
Qed.

Lemma reachable_balanced (name : key) (cap : Z) (k : nat) (s : shared) :
  reachable name cap k s -> balanced s.
Proof.
  induction 1 as [|s s' _ IH Hstep].
  - apply start_balanced.
  - eapply step_balanced; eauto.
Qed.

(** C4.  In every state that goroutines running [init], [putKey], [awaitKey]
    and [awaitKeys] can reach, the units in [q.c] are never more than the ids
    in the heap; a goroutine that has received from [q.c] and not popped yet
    finds the heap non-empty; and no [PopID] ever finds it empty. *)
Theorem signals_never_exceed_heap (name : key) (cap : Z) (k : nat) (s : shared) :
  reachable name cap k s ->
  (0 <= s_c s <= Z.of_nat (length (s_ids s)))%Z /\
  (forall i p, s_pcs s !! i = Some p -> past_wait_point p = true -> s_ids s <> []) /\
  (forall i, s_pcs s !! i <> Some Crashed).
Proof.
  intros Hr. destruct (reachable_balanced _ _ _ _ Hr) as (Hc & Hbal & Hok).
  pose proof (total_in_flight_nonneg (s_pcs s)) as Hnn.
  split; [lia|]. split; [|exact Hok].
  intros i p Hi Hp Hnil.
  pose proof (total_in_flight_lookup _ _ _ Hi) as Hle.
  rewrite Hnil in Hbal. simpl in Hbal.
  destruct p; simpl in Hp; try discriminate; simpl in Hle; lia.
Qed.

Lemma signals_never_exceed_heap_witness :
  reachable ns_a MaxQueue 1 pushed_not_signalled /\
  (0 <= s_c pushed_not_signalled <= Z.of_nat (length (s_ids pushed_not_signalled)))%Z.
Proof.
  assert (Hr : reachable ns_a MaxQueue 1 pushed_not_signalled).
  { eapply (reach_step _ _ _ (mkShared ns_a [] 0 MaxQueue (Some 0) [PutPush [1%N]])).
    - eapply (reach_step _ _ _ (mkShared ns_a [] 0 MaxQueue None [PutLock [1%N]])).
      + eapply (reach_step _ _ _ (start ns_a MaxQueue 1)).
        * apply reach_start.
        * apply (call_putKey (start ns_a MaxQueue 1) 0 [1%N]). reflexivity.
      + apply (put_lock (mkShared ns_a [] 0 MaxQueue None [PutLock [1%N]]) 0 [1%N]);
          reflexivity.
    - apply (put_push (mkShared ns_a [] 0 MaxQueue (Some 0) [PutPush [1%N]]) 0 1%N []).
      reflexivity. }
  split; [exact Hr|].
  apply (signals_never_exceed_heap ns_a MaxQueue 1 pushed_not_signalled Hr).
Defined.

(** ** [Put] then [take] *)

Lemma PushID_last (id : ID) (h : IDHeap) :
  Forall (fun x => (x < id)%N) h -> PushID id h = h ++ [id].
Proof.
  induction 1 as [|x r Hx _ IH]; simpl; [reflexivity|].
  destruct (id <=? x)%N eqn:E; [apply N.leb_le in E; lia|].
  rewrite IH. reflexivity.
Qed.

(** Ids handed out by the counter enter the heap in their order. *)
Lemma push_all_ids_from (n : nat) :
  forall (next : ID) (h : IDHeap),
    Forall (fun x => (x < next)%N) h ->
    push_all h (ids_from next n) = h ++ ids_from next n.
Proof.
  induction n as [|n IH]; intros next h Hh; simpl.
  - rewrite app_nil_r. reflexivity.
  - unfold push_all in *. simpl. rewrite PushID_last by exact Hh.
    rewrite IH.
    + rewrite <- app_assoc. reflexivity.
    + apply Forall_app. split.
      * eapply List.Forall_impl; [|exact Hh]. simpl. intros. lia.
      * constructor; [lia|constructor].
Qed.

Lemma ids_from_length (n : nat) (next : ID) : length (ids_from next n) = n.
Proof. revert next. induction n as [|n IH]; intros next; simpl; [reflexivity|]. rewrite IH. reflexivity. Qed.

Lemma ids_from_bounds (n : nat) (next id : ID) :
  In id (ids_from next n) -> (next <= id < next + N.of_nat n)%N.
Proof.
  revert next. induction n as [|n IH]; intros next; simpl; [tauto|].
  intros [<-|H]; [lia|]. specialize (IH _ H). lia.
Qed.

Lemma ids_from_roundtrip (n : nat) (next : ID) :
  (next + N.of_nat n <= ID_LIMIT)%N ->
  map (fun id => fst (KeyToID (ID_Key id))) (ids_from next n) = ids_from next n.
Proof.
  intros H. rewrite <- (map_id (ids_from next n)) at 2.
  apply map_ext_in. intros id Hin. apply ids_from_bounds in Hin.
  rewrite KeyToID_roundtrip; [reflexivity|lia].
Qed.

(** [Put] when the store takes the write and the channel has room. *)
Lemma Put_ok (next : ID) (q : Queue) (item : value) :
  write_fault (db q) = None ->
  (c q < c_cap q)%Z ->
  Put next q item =
  Returns (N.succ next,
           mkQueue (ns q)
             (set_entries (db q)
                (store_put (joinKey (ns q) (ID_Key next)) item (entries (db q))))
             (PushID next (ids q)) (sync q) (c q + 1) (c_cap q),
           None).
Proof.
  intros Hw Hc. unfold Put, db_Write. rewrite Hw. cbn [fold_left apply_op putKey].
  unfold send. cbn [c c_cap set_ids set_db].
  apply Z.ltb_lt in Hc. rewrite Hc. reflexivity.
Qed.

(** [Put] when the channel is full: the write is done, the id is pushed, and
    the signal never goes through. *)
Lemma Put_blocks (next : ID) (q : Queue) (item : value) :
  write_fault (db q) = None ->
  (c_cap q <= c q)%Z ->
  Put next q item = Blocks.
Proof.
  intros Hw Hc. unfold Put, db_Write. rewrite Hw. cbn [fold_left apply_op putKey].
  unfold send. cbn [c c_cap set_ids set_db].
  apply Z.ltb_ge in Hc. rewrite Hc. reflexivity.
Qed.

Lemma PutAll_ok (items : list value) :
  forall (next : ID) (q : Queue),
    write_fault (db q) = None ->
    (c q + Z.of_nat (length items) <= c_cap q)%Z ->
    exists q1,
      PutAll next q items = Returns ((next + N.of_nat (length items))%N, q1, None) /\
      ns q1 = ns q /\
      entries (db q1) = put_items (ns q) next items (entries (db q)) /\
      read_fault (db q1) = read_fault (db q) /\
      ids q1 = push_all (ids q) (ids_from next (length items)) /\
      c q1 = (c q + Z.of_nat (length items))%Z /\
      c_cap q1 = c_cap q.
Proof.
  induction items as [|item items IH]; intros next q Hw Hc.
  - exists q. simpl. rewrite N.add_0_r, Z.add_0_r. repeat split; reflexivity.
  - cbn [length] in Hc. cbn [PutAll]. rewrite Put_ok; [|exact Hw|lia].
    cbn [obind].
    destruct (IH (N.succ next)
                (mkQueue (ns q)
                   (set_entries (db q)
                      (store_put (joinKey (ns q) (ID_Key next)) item (entries (db q))))
                   (PushID next (ids q)) (sync q) (c q + 1) (c_cap q)))
      as (q1 & E & Hns & Hent & Hrf & Hids & Hcq & Hcap).
    + exact Hw.
    + cbn [c c_cap]. lia.
    + exists q1. rewrite E. cbn [ns db ids c c_cap set_entries entries read_fault] in *.
      cbn [length put_items ids_from].
      split; [do 3 f_equal; lia|].
      repeat split; try assumption. lia.
Qed.

Lemma PutAll_blocks (items : list value) :
  forall (next : ID) (q : Queue),
    write_fault (db q) = None ->
    (c q <= c_cap q)%Z ->
    (c_cap q < c q + Z.of_nat (length items))%Z ->
    PutAll next q items = Blocks.
Proof.
  induction items as [|item items IH]; intros next q Hw Hle Hc.
  - simpl in Hc. lia.
  - cbn [length] in Hc. cbn [PutAll].
    destruct (Z.eq_dec (c q) (c_cap q)) as [Hfull|Hroom].
    + rewrite Put_blocks; [reflexivity|exact Hw|lia].
    + rewrite Put_ok; [|exact Hw|lia]. cbn [obind].
      apply IH; cbn [db c c_cap set_entries write_fault]; try assumption; lia.
Qed.

Lemma put_items_other (p : key) (items : list value) :
  forall (next : ID) (s : store) (kk : key),
    (forall id, (next <= id < next + N.of_nat (length items))%N ->
                kk <> joinKey p (ID_Key id)) ->
    store_get (put_items p next items s) kk = store_get s kk.
Proof.
  induction items as [|item items IH]; intros next s kk H; [reflexivity|].
  cbn [put_items]. cbn [length] in H. rewrite IH.
  - rewrite store_get_put, bytes_eqb_neq; [reflexivity|].
    intros E. apply (H next); [lia|]. symmetry. exact E.
  - intros id Hid. apply H. lia.
Qed.

(** Each id reads back the item that was put under it. *)
Lemma get_put_items (p : key) (items : list value) :
  forall (next : ID) (s : store),
    (next + N.of_nat (length items) <= ID_LIMIT)%N ->
    map (fun id => store_get (put_items p next items s) (joinKey p (ID_Key id)))
        (ids_from next (length items)) =
    map Some items.
Proof.
  induction items as [|item items IH]; intros next s Hlim; [reflexivity|].
  cbn [length] in Hlim. cbn [length ids_from put_items map]. f_equal.
  - rewrite put_items_other.
    + rewrite store_get_put, bytes_eqb_refl. reflexivity.
    + intros id Hid E. unfold joinKey in E. apply app_inv_head in E.
      apply ID_Key_inj in E; lia.
  - apply IH. lia.
Qed.

(** C5, as the code has it.  On a fresh queue whose channel has room for [N]
    signals, [N] calls of [Put] by one goroutine all return, and a [take] of
    [N] whose timer outlasts its [N] turns then returns the [N] items in the
    order they were put, with the ids the counter handed out, and empties the
    queue. *)
Theorem puts_then_take_fifo (q : Queue) (next : ID) (items : list value)
    (t : Z) (sch : schedule) (now : Z) :
  ids q = [] -> c q = 0%Z ->
  write_fault (db q) = None ->
  (forall k, read_fault (db q) k = None) ->
  (Z.of_nat (length items) <= c_cap q)%Z ->
  (next + N.of_nat (length items) <= ID_LIMIT)%N ->
  (elapsed sch 0 (length items) < t)%Z ->
  exists q1 q2 now',
    PutAll next q items =
      Returns ((next + N.of_nat (length items))%N, q1, None) /\
    take (Z.of_nat (length items)) t sch now q1 =
      Returns ((ids_from next (length items),
                map ID_Key (ids_from next (length items)),
                map Some items,
                None), q2, now') /\
    ids q2 = [] /\ c q2 = 0%Z.
Proof.
  intros Hids Hc Hw Hr Hcap Hlim Ht.
  destruct (PutAll_ok items next q Hw) as (q1 & E & Hns & Hent & Hrf & Hh & Hc1 & _);
    [lia|].
  rewrite Hids, push_all_ids_from in Hh by constructor. cbn [app] in Hh.
  rewrite Hc, Z.add_0_l in Hc1.
  assert (Hcov : signals_covered q1).
  { unfold signals_covered. rewrite Hc1, Hh, ids_from_length. lia. }
  assert (Hr1 : forall k, read_fault (db q1) k = None) by (intros k; rewrite Hrf; apply Hr).
  destruct (take_ok (Z.of_nat (length items)) t sch now q1 Hcov Hr1)
    as (k & now' & Etake & Hk & _ & Hwhy).
  assert (Hkn : k = length items).
  { rewrite Hc1 in *. destruct Hwhy as [(_ & Hfull & _)|(_ & Hlast & Hwhy)]; [lia|].
    destruct (Nat.eq_dec k (length items)) as [|Hne]; [assumption|exfalso].
    destruct Hwhy as [Hdry|(Hfired & _)]; [lia|].
    assert (S k <= length items) by lia.
    pose proof (elapsed_mono sch (S k) (length items) 0 ltac:(lia)).
    unfold expiry in Hfired. lia. }
  subst k.
  exists q1, (set_c (set_ids q1 (skipn (length items) (ids q1)))
               (c q1 - Z.of_nat (length items))), now'.
  split; [exact E|]. split.
  - rewrite Etake. unfold taken_of. rewrite Hh, Hns, Hent.
    rewrite firstn_all2 by (rewrite ids_from_length; lia).
    rewrite ids_from_roundtrip by exact Hlim.
    rewrite get_put_items by exact Hlim. reflexivity.
  - cbn [ids c set_c set_ids]. rewrite Hh, Hc1. split; [|lia].
    apply skipn_all2. rewrite ids_from_length. lia.
Qed.

Lemma puts_then_take_fifo_witness :
  ids q_fresh = [] /\ c q_fresh = 0%Z /\
  write_fault (db q_fresh) = None /\
  (forall k, read_fault (db q_fresh) k = None) /\
  (Z.of_nat (length [item1; item2]) <= c_cap q_fresh)%Z /\
  (5 + N.of_nat (length [item1; item2]) <= ID_LIMIT)%N /\
  (elapsed prompt 0 (length [item1; item2]) < 1)%Z /\
  exists q1 q2 now',
    PutAll 5%N q_fresh [item1; item2] = Returns (7%N, q1, None) /\
    take 2 1 prompt 0 q1 =
      Returns (([5%N; 6%N], [ID_Key 5%N; ID_Key 6%N], [Some item1; Some item2], None),
               q2, now').
Proof.
  assert (H5 : (Z.of_nat (length [item1; item2]) <= c_cap q_fresh)%Z)
    by (vm_compute; discriminate).
  assert (H6 : (5 + N.of_nat (length [item1; item2]) <= ID_LIMIT)%N)
    by (vm_compute; discriminate).
  assert (H7 : (elapsed prompt 0 (length [item1; item2]) < 1)%Z) by reflexivity.
  repeat (split; [first [reflexivity | assumption]|]).
  destruct (puts_then_take_fifo q_fresh 5%N [item1; item2] 1 prompt 0
              eq_refl eq_refl eq_refl (fun _ => eq_refl) H5 H6 H7)
    as (q1 & q2 & now' & E1 & E2 & _).
  exists q1, q2, now'. split; [exact E1|exact E2].
Defined.

(** Counterexample to C5 as stated: [MaxQueue + 1] distinct payloads put one
    after the other on a fresh queue.  The last [Put] blocks on its signal,
    so the puts never end and no [take] follows them. *)
Lemma puts_beyond_capacity_block :
  List.NoDup (payloads (Z.to_nat (MaxQueue + 1))) /\
  PutAll 0%N q_fresh (payloads (Z.to_nat (MaxQueue + 1))) = Blocks.
Proof.
  split.
  - unfold payloads. apply List.NoDup_map_NoDup_ForallPairs.
    + intros i j Hi Hj E. apply in_seq in Hi. apply in_seq in Hj.
      assert (Hb : (N.of_nat (Z.to_nat (MaxQueue + 1)) < ID_LIMIT)%N)
        by (rewrite Z_nat_N; vm_compute; reflexivity).
      apply ID_Key_inj in E; lia.
    + apply List.seq_NoDup.
  - apply PutAll_blocks.
    + reflexivity.
    + vm_compute. discriminate.
    + unfold payloads. rewrite length_map, length_seq.
      rewrite Z2Nat.id by (vm_compute; discriminate).
      cbn [c c_cap q_fresh]. lia.
Qed.

(* ===================================================================== *)
(** * More of [queue.go] *)
(* ===================================================================== *)

(** ** [putKey] *)

Lemma putKey_room (l : list ID) :
  forall q,
    (c q + Z.of_nat (length l) <= c_cap q)%Z ->
    putKey q l =
    Returns (mkQueue (ns q) (db q) (push_all (ids q) l) (sync q)
                     (c q + Z.of_nat (length l)) (c_cap q)).
Proof.
  induction l as [|id l IH]; intros q Hc.
  - simpl. rewrite Z.add_0_r. destruct q; reflexivity.
  - cbn [length] in Hc. cbn [putKey]. unfold send. cbn [c c_cap set_ids].
    assert (Hlt : (c q <? c_cap q)%Z = true) by (apply Z.ltb_lt; lia).
    rewrite Hlt. cbn [obind]. rewrite IH by (cbn [c c_cap set_c set_ids]; lia).
    cbn [ns db ids sync c c_cap set_c set_ids push_all fold_left length].
    do 2 f_equal. lia.
Qed.

Lemma putKey_no_room (l : list ID) :
  forall q,
    (c q <= c_cap q)%Z ->
    (c_cap q < c q + Z.of_nat (length l))%Z ->
    putKey q l = Blocks.
Proof.
  induction l as [|id l IH]; intros q Hle Hc.
  - simpl in Hc. lia.
  - cbn [length] in Hc. cbn [putKey]. unfold send. cbn [c c_cap set_ids].
    destruct (c q <? c_cap q)%Z eqn:Hlt; [|reflexivity].
    apply Z.ltb_lt in Hlt. cbn [obind].
    apply IH; cbn [c c_cap set_c set_ids]; lia.
Qed.

Lemma push_all_length (l : list ID) (h : IDHeap) :
  length (push_all h l) = length h + length l.
Proof.
  pose proof (Permutation_length (push_all_perm l h)) as H.
  rewrite H, length_app. lia.
Qed.

(** X1.  When the channel has room for one signal per id, [putKey] returns:
    the heap holds the ids it was given besides those it held, the channel
    holds one more unit per id, the store and the namespace are as they
    were, and the channel still promises no more than the heap holds. *)
Theorem putKey_pushes_and_signals (q : Queue) (l : list ID) :
  (c q + Z.of_nat (length l) <= c_cap q)%Z ->
  exists q',
    putKey q l = Returns q' /\
    Permutation (ids q') (l ++ ids q) /\
    c q' = (c q + Z.of_nat (length l))%Z /\
    db q' = db q /\ ns q' = ns q /\ c_cap q' = c_cap q /\
    (signals_covered q -> signals_covered q').
Proof.
  intros Hc. eexists. split; [apply putKey_room; exact Hc|].
  cbn [ids c db ns c_cap]. split; [apply push_all_perm|].
  do 4 (split; [reflexivity|]).
  unfold signals_covered. cbn [ids c]. rewrite push_all_length. lia.
Qed.

Lemma putKey_pushes_and_signals_witness :
  (c q_one + Z.of_nat (length [2%N; 3%N]) <= c_cap q_one)%Z /\
  exists q', putKey q_one [2%N; 3%N] = Returns q' /\ c q' = 3%Z.
Proof.
  assert (H : (c q_one + Z.of_nat (length [2%N; 3%N]) <= c_cap q_one)%Z)
    by (vm_compute; discriminate).
  split; [exact H|].
  destruct (putKey_pushes_and_signals q_one [2%N; 3%N] H) as (q' & E & _ & Hc & _).
  exists q'. split; [exact E|exact Hc].
Defined.

(** X2.  On a channel that is not over its capacity, [putKey] blocks exactly
    when the signals of its ids do not all fit: it never returns then, and
    otherwise it does. *)
Theorem putKey_blocks_iff_no_room (q : Queue) (l : list ID) :
  (c q <= c_cap q)%Z ->
  (putKey q l = Blocks <-> (c_cap q < c q + Z.of_nat (length l))%Z) /\
  ((exists q', putKey q l = Returns q') <->
   (c q + Z.of_nat (length l) <= c_cap q)%Z).
Proof.
  intros Hle.
  destruct (Z_lt_le_dec (c_cap q) (c q + Z.of_nat (length l))) as [Hno|Hroom].
  - pose proof (putKey_no_room l q Hle Hno) as E. split; split.
    + intros _. exact Hno.
    + intros _. exact E.
    + intros (q' & E'). rewrite E in E'. discriminate.
    + intros H. lia.
  - pose proof (putKey_room l q Hroom) as E. split; split.
    + intros E'. rewrite E in E'. discriminate.
    + intros H. lia.
    + intros _. exact Hroom.
    + intros _. eexists. exact E.
Qed.

Lemma putKey_blocks_iff_no_room_witness :
  (c q_one <= c_cap q_one)%Z /\
  (exists q', putKey q_one [2%N] = Returns q').
Proof.
  assert (H : (c q_one <= c_cap q_one)%Z) by (vm_compute; discriminate).
  split; [exact H|].
  apply (proj2 (putKey_blocks_iff_no_room q_one [2%N] H)).
  vm_compute. discriminate.
Defined.

(** ** [awaitKeys] and [awaitKey] *)

(** X3.  A call of [awaitKeys] loses nothing: the keys it returns followed by
    the keys of the ids left in the heap are the keys of the heap it found,
    in the same order; the channel gives up one unit per key; the channel
    still promises no more than the heap holds; the store and the namespace
    are untouched; and time does not go back. *)
Theorem awaitKeys_conserves (n t : Z) (sch : schedule) (now : Z) (q : Queue) :
  signals_covered q ->
  exists keys q' now',
    awaitKeys n t sch now q = Returns (keys, q', now') /\
    map ID_Key (ids q) = keys ++ map ID_Key (ids q') /\
    c q' = (c q - Z.of_nat (length keys))%Z /\
    signals_covered q' /\
    db q' = db q /\ ns q' = ns q /\ c_cap q' = c_cap q /\
    (now <= now')%Z.
Proof.
  intros Hc.
  destruct (awaitKeys_spec n t sch now q Hc) as (k & now' & E & Hk & _ & Ht).
  destruct Hc as [Hc0 Hc1].
  assert (Hlen : length (firstn k (ids q)) = k) by (apply firstn_length_le; lia).
  eexists _, _, _. split; [exact E|].
  cbn [ids c db ns c_cap set_c set_ids]. rewrite length_map, Hlen.
  split; [rewrite <- map_app, firstn_skipn; reflexivity|].
  split; [reflexivity|]. split.
  - unfold signals_covered. cbn [ids c set_c set_ids]. rewrite length_skipn. lia.
  - do 3 (split; [reflexivity|]).
    pose proof (elapsed_nonneg sch k 0). pose proof (elapsed_nonneg sch (S k) 0).
    destruct Ht as [(_ & _ & ->)|(-> & _)]; lia.
Qed.

Lemma awaitKeys_conserves_witness :
  signals_covered q_two /\
  exists keys q' now',
    awaitKeys 1 5 prompt 0 q_two = Returns (keys, q', now') /\
    map ID_Key (ids q_two) = keys ++ map ID_Key (ids q').
Proof.
  assert (Hc : signals_covered q_two) by (unfold signals_covered; simpl; lia).
  split; [exact Hc|].
  destruct (awaitKeys_conserves 1 5 prompt 0 q_two Hc) as (keys & q' & now' & E & H & _).
  exists keys, q', now'. split; assumption.
Defined.



(** X5.  With [n <= 0] the test [len(b) == n] never holds: [awaitKeys] returns
    only through [cancel], so never before its timer has expired; and when
    the [select] never picks [cancel] over a unit that is there, it returns
    one key per unit the channel held. *)
Theorem awaitKeys_without_count_waits (n t : Z) (sch : schedule) (now : Z) (q : Queue) :
  (n <= 0)%Z ->
  signals_covered q ->
  exists keys q' now',
    awaitKeys n t sch now q = Returns (keys, q', now') /\
    (expiry now t <= now')%Z /\
    ((forall i, prefer_cancel (sch i) = false) ->
     Z.of_nat (length keys) = c q /\ c q' = 0%Z).
Proof.
  intros Hn Hc.
  destruct (awaitKeys_spec n t sch now q Hc) as (k & now' & E & Hk & _ & Hw).
  destruct Hc as [Hc0 Hc1].
  assert (Hlen : length (firstn k (ids q)) = k) by (apply firstn_length_le; lia).
  eexists _, _, _. split; [exact E|].
  destruct Hw as [(Hk0 & Hfull & _)|(Hnow & _ & Hwhy)]; [lia|].
  split; [lia|].
  intros Hsch. rewrite length_map, Hlen. cbn [c set_c].
  destruct Hwhy as [Hdry|(_ & Hp)]; [lia|].
  rewrite Hsch in Hp. discriminate.
Qed.

Lemma awaitKeys_without_count_waits_witness :
  (0 <= 0)%Z /\ signals_covered q_two /\
  exists keys q' now',
    awaitKeys 0 7 prompt 0 q_two = Returns (keys, q', now') /\
    (expiry 0 7 <= now')%Z.
Proof.
  assert (Hc : signals_covered q_two) by (unfold signals_covered; simpl; lia).
  split; [lia|]. split; [exact Hc|].
  destruct (awaitKeys_without_count_waits 0 7 prompt 0 q_two ltac:(lia) Hc)
    as (keys & q' & now' & E & H & _).
  exists keys, q', now'. split; assumption.
Defined.







(** ** [take]: all or nothing *)

Lemma take_loop_cases (q : Queue) (l : list ID) :
  let r := take_loop q (map ID_Key l) 0 (map ID_Key l)
             (replicate (length (map ID_Key l)) 0%N)
             (replicate (length (map ID_Key l)) None) None in
  (reads_ok q l /\ r = taken_of q l) \/
  (exists id e, In id l /\ read_fault (db q) (joinKey (ns q) (ID_Key id)) = Some e /\
                r = ([], [], [], Some e)).
Proof.
  intros r. subst r.
  destruct (first_fault (fun key => read_fault (db q) (joinKey (ns q) key))
              (map ID_Key l)) as [Hf|(pre & key & post & e & Hl & Hpre & Hkey)].
  - left. split.
    + intros id Hin. rewrite List.Forall_forall in Hf. apply Hf, in_map, Hin.
    + rewrite take_loop_ok; [|rewrite length_replicate; reflexivity
                              |rewrite length_replicate; reflexivity|exact Hf].
      unfold taken_of. rewrite !firstn_O, !map_map. cbn [app].
      destruct l as [|id l']; [reflexivity|].
      cbn [map]. rewrite <- (last_decodes (id :: l')) by discriminate. reflexivity.
  - right.
    assert (Hin : In key (map ID_Key l)) by (rewrite Hl; apply in_elt).
    apply in_map_iff in Hin as (id & <- & Hin).
    exists id, e. split; [exact Hin|]. split; [exact Hkey|].
    rewrite Hl at 2.
    apply (take_loop_fault q (map ID_Key l) (ID_Key id) post e pre); assumption.
Qed.

(** X8.  [take] returns all it popped or nothing.  It pops the [k] smallest
    ids; it reports an error exactly when the read of the value of one of
    them fails.  Without error the three slices have length [k] and [keys]
    holds the keys of the popped ids in ascending order of the ids; with an
    error the three slices are [nil].  Either way the [k] ids have left the
    heap, and the store and the namespace are as they were. *)
Theorem take_all_or_nothing (n t : Z) (sch : schedule) (now : Z) (q : Queue) :
  signals_covered q ->
  exists (k : nat) (now' : Z) (idsv : list ID) (keys : list key)
         (values : list (option value)) (err : option error) (q' : Queue),
    take n t sch now q = Returns ((idsv, keys, values, err), q', now') /\
    ids q = firstn k (ids q) ++ ids q' /\ length (firstn k (ids q)) = k /\
    c q' = (c q - Z.of_nat k)%Z /\ db q' = db q /\ ns q' = ns q /\
    (err = None <-> reads_ok q (firstn k (ids q))) /\
    (err = None ->
     keys = map ID_Key (firstn k (ids q)) /\ length idsv = k /\ length values = k) /\
    (err <> None -> idsv = [] /\ keys = [] /\ values = []).
Proof.
  intros Hc.
  destruct (awaitKeys_spec n t sch now q Hc) as (k & now' & E & Hk & _).
  destruct Hc as [Hc0 Hc1].
  assert (Hlen : length (firstn k (ids q)) = k) by (apply firstn_length_le; lia).
  set (l := firstn k (ids q)) in *.
  set (q' := set_c (set_ids q (skipn k (ids q))) (c q - Z.of_nat k)) in *.
  destruct (take_loop_cases q' l) as [[Hr Hok]|(id & e & Hin & Hfault & Hbad)].
  - exists k, now', (map (fun id => fst (KeyToID (ID_Key id))) l), (map ID_Key l),
      (map (fun id => store_get (entries (db q)) (joinKey (ns q) (ID_Key id))) l),
      None, q'.
    split; [unfold take; rewrite E; cbn [obind]; rewrite Hok; reflexivity|].
    split; [symmetry; apply firstn_skipn|]. split; [exact Hlen|].
    do 3 (split; [reflexivity|]).
    split; [split; [intros _; exact Hr|reflexivity]|].
    split; [intros _; rewrite !length_map; repeat split; exact Hlen|].
    intros H. contradiction H. reflexivity.
  - exists k, now', [], [], [], (Some e), q'.
    split; [unfold take; rewrite E; cbn [obind]; rewrite Hbad; reflexivity|].
    split; [symmetry; apply firstn_skipn|]. split; [exact Hlen|].
    do 3 (split; [reflexivity|]).
    split; [split; [discriminate|]|].
    + intros Hr. specialize (Hr id Hin). change (db q') with (db q) in Hfault.
      change (ns q') with (ns q) in Hfault. congruence.
    + split; [discriminate|]. intros _. repeat split.
Qed.

Lemma take_all_or_nothing_witness :
  signals_covered q_unreadable /\
  exists k now' idsv keys values err q',
    take 1 10 prompt 0 q_unreadable = Returns ((idsv, keys, values, err), q', now') /\
    (err = None <-> reads_ok q_unreadable (firstn k (ids q_unreadable))).
Proof.
  assert (Hc : signals_covered q_unreadable) by (unfold signals_covered; simpl; lia).
  split; [exact Hc|].
  destruct (take_all_or_nothing 1 10 prompt 0 q_unreadable Hc)
    as (k & now' & idsv & keys & values & err & q' & E & _ & _ & _ & _ & _ & H & _).
  exists k, now', idsv, keys, values, err, q'. split; assumption.
Defined.

(** ** [init] on any queue *)

(** X9.  [init] on a store in key order scans exactly the entries of its
    namespace, up to the first key that does not decode.  When the channel
    has room for one signal per id decoded, [init] returns: the ids decoded
    are added to the heap, each with its signal, including those that come
    before a key that does not decode, whose error is returned; the store is
    not written.  When the channel has not that much room, [init] blocks on a
    signal and does not return. *)
Theorem init_scans_the_namespace (q : Queue) :
  ascending (entries (db q)) = true ->
  (c q <= c_cap q)%Z ->
  let found := decode_range (ns q) (prefix_range (db q) (ns q)) in
  ((c q + Z.of_nat (length (fst found)) <= c_cap q)%Z ->
   exists q',
     init q = Returns (q', snd found) /\
     Permutation (ids q') (fst found ++ ids q) /\
     c q' = (c q + Z.of_nat (length (fst found)))%Z /\
     db q' = db q /\ ns q' = ns q /\ c_cap q' = c_cap q /\
     (signals_covered q -> signals_covered q')) /\
  ((c_cap q < c q + Z.of_nat (length (fst found)))%Z -> init q = Blocks).
Proof.
  intros Hasc Hcap found.
  destruct (seek_lands_on_range (ns q) (entries (db q)) Hasc) as (rest & Hseek & Hend).
  unfold init. rewrite seek_ns_from, Hseek. fold (prefix_range (db q) (ns q)).
  split; intros Hroom.
  - rewrite init_loop_range; [|apply prefix_range_Forall|exact Hend|exact Hroom].
    fold found. eexists. split; [reflexivity|].
    cbn [ids c db ns c_cap set_c set_ids].
    split; [apply push_all_perm|]. do 4 (split; [reflexivity|]).
    unfold signals_covered. cbn [ids c set_c set_ids].
    rewrite push_all_length. lia.
  - apply init_loop_blocks; [apply prefix_range_Forall|exact Hcap|exact Hroom].
Qed.

Lemma init_scans_the_namespace_witness :
  ascending (entries (db q_one)) = true /\ (c q_one <= c_cap q_one)%Z /\
  exists q', init q_one = Returns (q', None) /\ ids q' = [1%N; 1%N] /\ c q' = 2%Z.
Proof.
  assert (Hcap : (c q_one <= c_cap q_one)%Z) by (vm_compute; discriminate).
  split; [reflexivity|]. split; [exact Hcap|].
  destruct (proj1 (init_scans_the_namespace q_one eq_refl Hcap)
              ltac:(vm_compute; discriminate)) as (q' & E & _).
  exists q'. split; [exact E|].
  vm_compute in E. injection E as <-. split; reflexivity.
Defined.

(** ** [Queue.Clear] on any queue *)

Lemma set_db_same (q : Queue) : set_db q (db q) = q.
Proof. destruct q; reflexivity. Qed.

Lemma db_Write_nothing (d : LevelDB) : db_Write d [] = (d, write_fault d).
Proof. unfold db_Write. destruct d as [s r [e|]]; reflexivity. Qed.

Lemma Clear_loop_leaves (q : Queue) (rest : Iterator) (fuel : nat) (b : WriteBatch) :
  range_end (ns q) rest -> Clear_loop (S fuel) q rest b = Some b.
Proof.
  intros Hend. destruct rest as [|[k v] rest]; cbn [Clear_loop it_Valid it_Key].
  - reflexivity.
  - unfold splitKey. cbn [range_end] in Hend. rewrite Hend. reflexivity.
Qed.

(** X10.  On a store in key order, [Queue.Clear] returns exactly when the
    namespace holds no entry.  It then deletes nothing: it writes an empty
    batch, returns the error of that write, and leaves the queue and the
    store as they were.  With an entry in the namespace its loop stays on
    the first one, however many turns it is given. *)
Theorem Queue_Clear_returns_iff_empty (q : Queue) :
  ascending (entries (db q)) = true ->
  (prefix_range (db q) (ns q) = [] ->
   forall fuel, Clear (S fuel) q = Some (q, write_fault (db q))) /\
  (prefix_range (db q) (ns q) <> [] -> forall fuel, Clear fuel q = None) /\
  ((exists fuel r, Clear fuel q = Some r) <-> prefix_range (db q) (ns q) = []).
Proof.
  intros Hasc.
  assert (Hempty : prefix_range (db q) (ns q) = [] ->
                   forall fuel, Clear (S fuel) q = Some (q, write_fault (db q))).
  { intros He fuel. unfold Clear. rewrite seek_ns_from.
    destruct (seek_lands_on_range (ns q) (entries (db q)) Hasc) as (rest & Hseek & Hend).
    rewrite Hseek. fold (prefix_range (db q) (ns q)). rewrite He. cbn [app].
    rewrite (Clear_loop_leaves q rest fuel [] Hend), db_Write_nothing, set_db_same.
    reflexivity. }
  split; [exact Hempty|]. split; [apply Clear_diverges; exact Hasc|].
  split.
  - intros (fuel & r & E).
    destruct (prefix_range (db q) (ns q)) as [|kv l] eqn:Hr; [reflexivity|].
    rewrite Clear_diverges in E; [discriminate|exact Hasc|rewrite Hr; discriminate].
  - intros He. exists 1, (q, write_fault (db q)). apply Hempty, He.
Qed.

Lemma Queue_Clear_returns_iff_empty_witness :
  ascending (entries (db q_fresh)) = true /\
  Clear 1 q_fresh = Some (q_fresh, None) /\
  forall fuel, Clear fuel q_one = None.
Proof.
  split; [reflexivity|]. split.
  - apply (proj1 (Queue_Clear_returns_iff_empty q_fresh eq_refl)). reflexivity.
  - apply (proj1 (proj2 (Queue_Clear_returns_iff_empty q_one eq_refl))).
    vm_compute. discriminate.
Defined.

(** ** Goroutines: the mutex *)

Lemma mutex_tracks_move (s : shared) (i : nat) (p p' : pc) (m' : option nat)
    (h : IDHeap) (cq : Z) :
  mutex_tracks s ->
  s_pcs s !! i = Some p ->
  (holds_mutex p = holds_mutex p' /\ m' = s_mutex s) \/
  (holds_mutex p = false /\ holds_mutex p' = true /\ s_mutex s = None /\ m' = Some i) \/
  (holds_mutex p = true /\ holds_mutex p' = false /\ m' = None) ->
  mutex_tracks (mkShared (s_ns s) h cq (s_cap s) m' (<[i := p']> (s_pcs s))).
Proof.
  intros Hinv Hat Hcase j pj Hj. cbn [s_pcs s_mutex] in *.
  pose proof (Hinv i p Hat) as Hi.
  apply list_lookup_insert_Some in Hj as [(-> & <- & _)|(Hne & Hj)].
  - destruct Hcase as [(E & ->)|[(_ & -> & _ & ->)|(E & -> & ->)]].
    + rewrite <- E. exact Hi.
    + tauto.
    + split; discriminate.
  - pose proof (Hinv j pj Hj) as Hjj.
    destruct Hcase as [(_ & ->)|[(_ & _ & Hm & ->)|(E & _ & ->)]].
    + exact Hjj.
    + rewrite Hm in Hjj. split; [intros H; apply Hjj in H; discriminate|].
      intros [= ->]. contradiction.
    + apply Hi in E. rewrite E in Hjj.
      split; [intros H; apply Hjj in H; injection H as ->; contradiction|discriminate].
Qed.

Lemma holds_mutex_after_pop (n : Z) (b : list key) : holds_mutex (after_pop n b) = false.
Proof. unfold after_pop. destruct (_ =? _)%Z; reflexivity. Qed.

Ltac mutex_step Hinv :=
  match goal with
  | Hat : at_pc _ _ _ |- _ =>
      unfold at_pc in Hat;
      unfold goto, with_ids, with_c, with_mutex;
      cbn [s_ns s_ids s_c s_cap s_mutex s_pcs];
      apply (mutex_tracks_move _ _ _ _ _ _ _ Hinv Hat);
      rewrite ?holds_mutex_after_pop; cbn [holds_mutex];
      first [ left; split; reflexivity
            | right; left; repeat split; solve [reflexivity | assumption]
            | right; right; repeat split; reflexivity ]
  end.

Lemma crash_unreachable (s : shared) (i : nat) :
  balanced (goto s i Crashed) -> i < length (s_pcs s) -> False.
Proof.
  intros (_ & _ & Hok) Hi. apply (Hok i). unfold goto. cbn [s_pcs].
  apply list_lookup_insert_eq. exact Hi.
Qed.

Lemma reachable_mutex_tracks (name : key) (cap : Z) (k : nat) (s : shared) :
  reachable name cap k s -> mutex_tracks s.
Proof.
  induction 1 as [|s s' Hr IH Hstep].
  - intros i p H. unfold start in *. cbn [s_pcs s_mutex] in *.
    apply lookup_replicate in H as [-> _]. split; discriminate.
  - pose proof (step_balanced s s' (reachable_balanced _ _ _ _ Hr) Hstep) as Hbal.
    destruct Hstep; try solve [mutex_step IH].
    + exfalso. apply (crash_unreachable s i Hbal). eapply lookup_lt_Some. exact H.
    + exfalso. apply (crash_unreachable s i Hbal). eapply lookup_lt_Some. exact H.
Qed.

(** X11.  In every state that goroutines running [init], [putKey], [awaitKey]
    and [awaitKeys] can reach, a goroutine stands between [q.mutex.Lock()] and
    [q.mutex.Unlock()] exactly when it is the one that holds the mutex: so two
    goroutines are never both between a [Lock] and its [Unlock], and with the
    mutex free no goroutine is at a push or a pop of [putKey], [awaitKey] or
    [awaitKeys]. *)
Theorem mutex_held_by_one (name : key) (cap : Z) (k : nat) (s : shared) :
  reachable name cap k s ->
  (forall i p, s_pcs s !! i = Some p ->
               (holds_mutex p = true <-> s_mutex s = Some i)) /\
  (forall i j p p',
      s_pcs s !! i = Some p -> s_pcs s !! j = Some p' ->
      holds_mutex p = true -> holds_mutex p' = true -> i = j) /\
  (s_mutex s = None ->
   forall i p, s_pcs s !! i = Some p -> holds_mutex p = false).
Proof.
  intros Hr. pose proof (reachable_mutex_tracks _ _ _ _ Hr) as Hinv.
  split; [exact Hinv|]. split.
  - intros i j p p' Hi Hj Hp Hp'.
    apply (Hinv i p Hi) in Hp. apply (Hinv j p' Hj) in Hp'. congruence.
  - intros Hm i p Hi. destruct (holds_mutex p) eqn:Hp; [|reflexivity].
    apply (Hinv i p Hi) in Hp. congruence.
Qed.

Lemma reach_pushed_not_signalled : reachable ns_a MaxQueue 1 pushed_not_signalled.
Proof.
  eapply (reach_step _ _ _ (mkShared ns_a [] 0 MaxQueue (Some 0) [PutPush [1%N]])).
  - eapply (reach_step _ _ _ (mkShared ns_a [] 0 MaxQueue None [PutLock [1%N]])).
    + eapply (reach_step _ _ _ (start ns_a MaxQueue 1)).
      * apply reach_start.
      * apply (call_putKey (start ns_a MaxQueue 1) 0 [1%N]). reflexivity.
    + apply (put_lock (mkShared ns_a [] 0 MaxQueue None [PutLock [1%N]]) 0 [1%N]);
        reflexivity.
  - apply (put_push (mkShared ns_a [] 0 MaxQueue (Some 0) [PutPush [1%N]]) 0 1%N []).
    reflexivity.
Qed.

Lemma mutex_held_by_one_witness :
  reachable ns_a MaxQueue 1 pushed_not_signalled /\
  (holds_mutex (PutSend []) = true <-> s_mutex pushed_not_signalled = Some 0).
Proof.
  split; [exact reach_pushed_not_signalled|].
  apply (proj1 (mutex_held_by_one ns_a MaxQueue 1 pushed_not_signalled
                  reach_pushed_not_signalled) 0 (PutSend [])).
  reflexivity.
Defined.

(** ** Goroutines: [putKey] against [awaitKeys] *)

(** [putKey] with the mutex held pushes and signals the ids [l1] one after
    the other while the channel has room. *)
Lemma put_burst (name : key) (cap : Z) (p1 : pc) (l1 : list ID) :
  forall (l2 : list ID) (h : IDHeap) (cq : Z),
    reachable name cap 2 (mkShared name h cq cap (Some 0) [PutPush (l1 ++ l2); p1]) ->
    (cq + Z.of_nat (length l1) <= cap)%Z ->
    reachable name cap 2
      (mkShared name (push_all h l1) (cq + Z.of_nat (length l1)) cap (Some 0)
         [PutPush l2; p1]).
Proof.
  induction l1 as [|id l1 IH]; intros l2 h cq Hr Hroom.
  - cbn [length push_all fold_left app] in *. rewrite Z.add_0_r. exact Hr.
  - cbn [length app] in *.
    replace (cq + Z.of_nat (S (length l1)))%Z with (cq + 1 + Z.of_nat (length l1))%Z by lia.
    change (push_all h (id :: l1)) with (push_all (PushID id h) l1).
    apply IH; [|lia].
    apply (reach_step _ _ _
             (mkShared name (PushID id h) cq cap (Some 0) [PutSend (l1 ++ l2); p1])).
    + apply (reach_step _ _ _ _ _ Hr).
      exact (put_push (mkShared name h cq cap (Some 0) [PutPush (id :: l1 ++ l2); p1])
               0 id (l1 ++ l2) eq_refl).
    + apply (put_send (mkShared name (PushID id h) cq cap (Some 0)
                         [PutSend (l1 ++ l2); p1]) 0 (l1 ++ l2) eq_refl).
      cbn [s_c s_cap]. lia.
Qed.

Lemma jammed_stuck (name : key) (cap : Z) (h : IDHeap) (n : Z) :
  stuck (jammed name cap h n).
Proof.
  intros s' Hstep. unfold jammed in Hstep.
  inversion Hstep; subst;
    match goal with
    | Hat : at_pc _ ?i _ |- _ =>
        unfold at_pc in Hat; cbn [s_pcs] in Hat;
        destruct i as [|[|?]]; cbn in Hat; try discriminate
    end.
  cbn [s_c s_cap] in *. lia.
Qed.

Lemma jammed_reachable (name : key) (cap n : Z) :
  (1 <= cap)%Z ->
  reachable name cap 2
    (jammed name cap
       (PushID 0%N (push_all [0%N] (replicate (Z.to_nat cap) 0%N))) n).
Proof.
  intros Hcap. unfold jammed.
  set (l1 := replicate (Z.to_nat cap) 0%N).
  assert (Hl1 : Z.of_nat (length l1) = cap)
    by (unfold l1; rewrite length_replicate; lia).
  assert (R1 : reachable name cap 2
                 (mkShared name [] 0 cap None [Idle; AwaitSelect n []])).
  { apply (reach_step _ _ _ _ _ (reach_start name cap 2)).
    exact (call_awaitKeys (start name cap 2) 1 n eq_refl). }
  assert (R2 : reachable name cap 2
                 (mkShared name [] 0 cap (Some 0)
                    [PutPush (0%N :: l1 ++ [0%N]); AwaitSelect n []])).
  { apply (reach_step _ _ _
             (mkShared name [] 0 cap None
                [PutLock (0%N :: l1 ++ [0%N]); AwaitSelect n []])).
    - apply (reach_step _ _ _ _ _ R1).
      exact (call_putKey (mkShared name [] 0 cap None [Idle; AwaitSelect n []])
               0 (0%N :: l1 ++ [0%N]) eq_refl).
    - exact (put_lock (mkShared name [] 0 cap None
                         [PutLock (0%N :: l1 ++ [0%N]); AwaitSelect n []])
               0 (0%N :: l1 ++ [0%N]) eq_refl eq_refl). }
  assert (R3 : reachable name cap 2
                 (mkShared name [0%N] 1 cap (Some 0)
                    [PutPush (l1 ++ [0%N]); AwaitSelect n []])).
  { apply (reach_step _ _ _
             (mkShared name [0%N] 0 cap (Some 0)
                [PutSend (l1 ++ [0%N]); AwaitSelect n []])).
    - apply (reach_step _ _ _ _ _ R2).
      exact (put_push (mkShared name [] 0 cap (Some 0)
                         [PutPush (0%N :: l1 ++ [0%N]); AwaitSelect n []])
               0 0%N (l1 ++ [0%N]) eq_refl).
    - apply (put_send (mkShared name [0%N] 0 cap (Some 0)
                         [PutSend (l1 ++ [0%N]); AwaitSelect n []])
               0 (l1 ++ [0%N]) eq_refl).
      cbn [s_c s_cap]. lia. }
  assert (R4 : reachable name cap 2
                 (mkShared name [0%N] 0 cap (Some 0)
                    [PutPush (l1 ++ [0%N]); AwaitLock n []])).
  { apply (reach_step _ _ _ _ _ R3).
    apply (await_recv (mkShared name [0%N] 1 cap (Some 0)
                         [PutPush (l1 ++ [0%N]); AwaitSelect n []]) 1 n [] eq_refl).
    cbn [s_c]. lia. }
  assert (Hroom : (0 + Z.of_nat (length l1) <= cap)%Z) by lia.
  pose proof (put_burst name cap (AwaitLock n []) l1 [0%N] [0%N] 0 R4 Hroom) as R5.
  change (@length ID l1) with (@length N l1) in R5.
  rewrite Z.add_0_l, Hl1 in R5.
  apply (reach_step _ _ _ _ _ R5).
  exact (put_push (mkShared name (push_all [0%N] l1) cap cap (Some 0)
                     [PutPush [0%N]; AwaitLock n []]) 0 0%N [] eq_refl).
Qed.

(** X12.  [putKey] sends on [q.c] with the mutex held, and [awaitKeys] takes
    the mutex after it has received.  With a channel of any capacity
    [cap >= 1], two goroutines reach a state where neither can move: [putKey]
    waits at its send for room in the full channel, [awaitKeys] waits at
    [Lock] for the mutex, and the timer of [awaitKeys] does not free it. *)
Theorem putKey_awaitKeys_deadlock (name : key) (cap n : Z) :
  (1 <= cap)%Z ->
  exists h,
    reachable name cap 2 (jammed name cap h n) /\
    stuck (jammed name cap h n) /\
    at_pc (jammed name cap h n) 0 (PutSend []) /\
    at_pc (jammed name cap h n) 1 (AwaitLock n []) /\
    s_mutex (jammed name cap h n) = Some 0 /\
    s_c (jammed name cap h n) = s_cap (jammed name cap h n).
Proof.
  intros Hcap.
  exists (PushID 0%N (push_all [0%N] (replicate (Z.to_nat cap) 0%N))).
  split; [apply jammed_reachable; exact Hcap|].
  split; [apply jammed_stuck|].
  repeat split.
Qed.

Lemma putKey_awaitKeys_deadlock_witness :
  (1 <= 1)%Z /\
  exists h, reachable ns_a 1 2 (jammed ns_a 1 h 1) /\ stuck (jammed ns_a 1 h 1).
Proof.
  split; [lia|].
  destruct (putKey_awaitKeys_deadlock ns_a 1 1 ltac:(lia)) as (h & Hr & Hs & _).
  exists h. split; assumption.
Defined.

(* ===================================================================== *)
(** * More of [goleveldb.go] *)
(* ===================================================================== *)

(** ** Keys under a namespace *)

Lemma bytes_eqb_app (p a b : key) : bytes_eqb (p ++ a) (p ++ b) = bytes_eqb a b.
Proof.
  unfold bytes_eqb. rewrite bytes_compare_app by reflexivity.
  rewrite bytes_compare_refl. reflexivity.
Qed.

Lemma bytes_ltb_app (p a b : key) : bytes_ltb (p ++ a) (p ++ b) = bytes_ltb a b.
Proof.
  unfold bytes_ltb. rewrite bytes_compare_app by reflexivity.
  rewrite bytes_compare_refl. reflexivity.
Qed.

Lemma prefix_differs (kk k p : key) :
  has_prefix kk p = false -> has_prefix k p = true -> bytes_eqb k kk = false.
Proof.
  intros Hkk Hk. apply bytes_eqb_neq. intros ->. congruence.
Qed.

Lemma store_get_In (s : store) (k : key) (v : value) :
  store_get s k = Some v -> In (k, v) s.
Proof.
  induction s as [|[k0 v0] r IH]; simpl; [discriminate|].
  destruct (bytes_eqb k0 k) eqn:E.
  - apply bytes_eqb_eq in E. subst k0. intros [= ->]. left. reflexivity.
  - intros H. right. apply IH, H.
Qed.

Lemma In_store_get (s : store) (k : key) (v : value) :
  In (k, v) s -> exists v', store_get s k = Some v'.
Proof.
  induction s as [|[k0 v0] r IH]; simpl; [contradiction|].
  intros [E|Hin].
  - injection E as -> ->. rewrite bytes_eqb_refl. eauto.
  - destruct (bytes_eqb k0 k); [eauto|apply IH, Hin].
Qed.

(** In a store in key order a key occurs once. *)
Lemma ascending_unique (s : store) (k : key) (v : value) :
  ascending s = true -> In (k, v) s -> store_get s k = Some v.
Proof.
  induction s as [|[k0 v0] r IH]; intros Hasc Hin; [contradiction|].
  cbn [store_get]. destruct Hin as [E|Hin].
  - injection E as -> ->. rewrite bytes_eqb_refl. reflexivity.
  - destruct (bytes_eqb k0 k) eqn:E.
    + apply bytes_eqb_eq in E. subst k0.
      pose proof (ascending_head k v0 r Hasc) as Hhd.
      rewrite List.Forall_forall in Hhd. specialize (Hhd _ Hin). cbn [fst] in Hhd.
      rewrite bytes_ltb_irrefl in Hhd. discriminate.
    + apply IH; [eapply ascending_tail; exact Hasc|exact Hin].
Qed.

Lemma store_get_none_nil (s : store) : (forall k, store_get s k = None) -> s = [].
Proof.
  destruct s as [|[k v] r]; [reflexivity|].
  intros H. specialize (H k). cbn [store_get] in H.
  rewrite bytes_eqb_refl in H. discriminate.
Qed.

Lemma ascending_relative (p : key) (l : store) :
  Forall (fun kv => has_prefix (fst kv) p = true) l ->
  ascending l = true ->
  ascending (map (relative p) l) = true.
Proof.
  intros HF. induction HF as [|[k v] l Hk HF IH]; intros Hasc; [reflexivity|].
  specialize (IH (ascending_tail _ _ Hasc)).
  cbn [map]. unfold relative at 1. cbn [fst snd].
  apply ascending_cons; [|exact IH].
  destruct l as [|[k' v'] l']; [exact I|].
  cbn [map relative fst].
  inversion HF as [|? ? Hk' _]; subst. cbn [fst] in Hk, Hk'.
  cbn [ascending] in Hasc. apply andb_prop in Hasc as [Hlt _].
  rewrite (has_prefix_split k p Hk), (has_prefix_split k' p Hk') in Hlt.
  rewrite bytes_ltb_app in Hlt. exact Hlt.
Qed.

(** ** [ForEach] *)

Lemma visit_all_app {S : Type} (fn : goleveldb.visitor S) (l1 l2 : list (key * value))
    (st : S) :
  visit_all fn (l1 ++ l2) st =
  match visit_all fn l1 st with
  | (st', Some err) => (st', Some err)
  | (st', None) => visit_all fn l2 st'
  end.
Proof.
  revert st. induction l1 as [|[k v] l1 IH]; intros st; cbn [app visit_all].
  - reflexivity.
  - destruct (fn st k v) as [st' [err|]]; [reflexivity|apply IH].
Qed.

(** X13.  [ForEach] stops at the first error of its function and returns it:
    when the function has accepted the entries [pre] of the namespace and
    fails on the next one, [ForEach] returns that error and the function is
    not called on the entries [post] that follow: whatever follows, even a
    key too short to be stripped of the namespace, the result is the same. *)
Theorem ForEach_stops_at_first_error {S : Type} (q : goleveldb.Bucket)
    (fn : goleveldb.visitor S) (st st1 st2 : S)
    (pre post : list (key * value)) (kk : key) (v : value) (err : error) :
  prefix_range (goleveldb.db q) (goleveldb.ns q) = pre ++ (kk, v) :: post ->
  visit_all fn (map (relative (goleveldb.ns q)) pre) st = (st1, None) ->
  fn st1 (skipn (length (goleveldb.ns q)) kk) v = (st2, Some err) ->
  goleveldb.ForEach q fn st = Returns (st2, Some err) /\
  forall post',
    goleveldb.ForEach_loop q fn (pre ++ (kk, v) :: post') st = Returns (st2, Some err).
Proof.
  intros Hr Hpre Hfn.
  assert (Hstop : forall l, visit_all fn (map (relative (goleveldb.ns q))
                                            (pre ++ (kk, v) :: l)) st = (st2, Some err)).
  { intros l. rewrite map_app, visit_all_app, Hpre. cbn [map visit_all relative fst snd].
    rewrite Hfn. reflexivity. }
  split.
  - rewrite ForEach_visit, Hr. f_equal. apply Hstop.
  - intros post'.
    assert (HF : Forall (fun kv => has_prefix (fst kv) (goleveldb.ns q) = true)
                   (pre ++ [(kk, v)])).
    { pose proof (prefix_range_Forall (goleveldb.db q) (goleveldb.ns q)) as HF.
      rewrite Hr in HF. apply Forall_app in HF as [H1 H2].
      apply Forall_app. split; [exact H1|].
      inversion H2; subst. constructor; [assumption|constructor]. }
    clear Hr Hstop. revert st Hpre.
    apply Forall_app in HF as [H1 H2].
    induction H1 as [|[k0 v0] pre Hk0 _ IH]; intros st Hpre.
    + cbn [map visit_all] in Hpre. injection Hpre as ->.
      inversion H2 as [|? ? Hkk _]; subst. cbn [fst] in Hkk.
      cbn [app goleveldb.ForEach_loop]. unfold goleveldb.slice_from.
      pose proof (has_prefix_length _ _ Hkk) as Hl. apply Nat.leb_le in Hl.
      rewrite Hl. cbn [obind]. rewrite Hfn. reflexivity.
    + cbn [map visit_all relative fst snd] in Hpre.
      cbn [app goleveldb.ForEach_loop]. unfold goleveldb.slice_from.
      pose proof (has_prefix_length _ _ Hk0) as Hl. cbn [fst] in Hl.
      apply Nat.leb_le in Hl. rewrite Hl. cbn [obind].
      destruct (fn st (skipn (length (goleveldb.ns q)) k0) v0) as [st' [e|]];
        [discriminate|].
      apply IH. exact Hpre.
Qed.

Lemma ForEach_stops_at_first_error_witness :
  prefix_range two_namespaces ns_a = [] ++ (ns_a ++ ID_Key 1%N, item1) :: [] /\
  goleveldb.ForEach (goleveldb.mkBucket two_namespaces ns_a)
    (count_until (ID_Key 1%N)) 0 = Returns (1, Some ErrNotFound).
Proof.
  assert (Hr : prefix_range two_namespaces ns_a =
               [] ++ (ns_a ++ ID_Key 1%N, item1) :: []) by reflexivity.
  split; [exact Hr|].
  apply (proj1 (ForEach_stops_at_first_error
                  (goleveldb.mkBucket two_namespaces ns_a)
                  (count_until (ID_Key 1%N)) 0 0 1 [] [] (ns_a ++ ID_Key 1%N) item1
                  ErrNotFound Hr eq_refl eq_refl)).
Defined.

(** X14.  On a store in key order that answers its reads, [ForEach] and [Get]
    agree: [ForEach] shows the pair [(k, v)] exactly when [Get k] returns
    [v], so a key [Get] does not find is not shown; and the keys are shown
    in strictly ascending order, each once. *)
Theorem ForEach_agrees_with_Get (q : goleveldb.Bucket) :
  ascending (entries (goleveldb.db q)) = true ->
  (forall kk, read_fault (goleveldb.db q) kk = None) ->
  exists seen,
    goleveldb.ForEach q collect [] = Returns (seen, None) /\
    ascending seen = true /\
    (forall k v, In (k, v) seen <-> goleveldb.Get q k = (Some v, None)) /\
    (forall k, (forall v, ~ In (k, v) seen) <->
               goleveldb.Get q k = (None, Some ErrNotFound)).
Proof.
  intros Hasc Hread.
  set (range := prefix_range (goleveldb.db q) (goleveldb.ns q)).
  pose proof (prefix_range_Forall (goleveldb.db q) (goleveldb.ns q)) as HF.
  fold range in HF.
  assert (Hseen : forall k v,
             In (k, v) (map (relative (goleveldb.ns q)) range) <->
             store_get (entries (goleveldb.db q)) (goleveldb.ns q ++ k) = Some v).
  { intros k v. split.
    - intros Hin. apply in_map_iff in Hin as ([k0 v0] & E & Hin).
      unfold relative in E. cbn [fst snd] in E. injection E as <- <-.
      apply prefix_range_in in Hin as [Hin Hp]. cbn [fst] in Hp.
      rewrite <- (has_prefix_split k0 _ Hp).
      apply ascending_unique; assumption.
    - intros Hget. apply store_get_In in Hget.
      apply in_map_iff. exists (goleveldb.ns q ++ k, v). split.
      + unfold relative. cbn [fst snd]. rewrite skipn_prefix. reflexivity.
      + apply prefix_range_in. split; [exact Hget|]. apply has_prefix_app. }
  exists (map (relative (goleveldb.ns q)) range).
  split; [rewrite ForEach_visit, visit_all_collect; reflexivity|].
  split; [apply ascending_relative; [exact HF|apply ascending_filter; exact Hasc]|].
  assert (Hget : forall k,
             goleveldb.Get q k =
             match store_get (entries (goleveldb.db q)) (goleveldb.ns q ++ k) with
             | Some v => (Some v, None)
             | None => (None, Some ErrNotFound)
             end).
  { intros k. unfold goleveldb.Get, goleveldb_Get, goleveldb.append_ns.
    rewrite Hread. reflexivity. }
  split.
  - intros k v. rewrite Hseen, Hget.
    destruct (store_get _ _) as [v'|]; split; intros H; congruence.
  - intros k. rewrite Hget. split.
    + intros Hno. destruct (store_get _ _) as [v'|] eqn:E; [|reflexivity].
      exfalso. apply (Hno v'). apply Hseen. exact E.
    + intros H v Hin. apply Hseen in Hin. rewrite Hin in H. discriminate.
Qed.

Lemma ForEach_agrees_with_Get_witness :
  ascending (entries (goleveldb.db bucket_one)) = true /\
  (forall kk, read_fault (goleveldb.db bucket_one) kk = None) /\
  exists seen,
    goleveldb.ForEach bucket_one collect [] = Returns (seen, None) /\
    ascending seen = true.
Proof.
  assert (Hread : forall kk, read_fault (goleveldb.db bucket_one) kk = None)
    by (intros kk; reflexivity).
  split; [reflexivity|]. split; [exact Hread|].
  destruct (ForEach_agrees_with_Get bucket_one eq_refl Hread) as (seen & E & Ha & _).
  exists seen. split; assumption.
Defined.

(** ** [Batch] *)

Lemma stage_all_result (ops : list staged) (final : option error) :
  forall b,
    snd (stage_all ops final b) = final /\
    goleveldb.batch_ns (fst (stage_all ops final b)) = goleveldb.batch_ns b.
Proof.
  induction ops as [|o ops IH]; intros b; [split; reflexivity|].
  destruct o as [k v|k|];
    cbn [stage_all stage goleveldb.Batch_Put goleveldb.Batch_Delete
           goleveldb.Batch_Clear];
    apply (IH (goleveldb.mkBatch _ (goleveldb.batch_ns b))).
Qed.

(** Every operation a batch stages is on a key of its namespace. *)
Lemma stage_all_keys (ops : list staged) (final : option error) :
  forall b,
    Forall (fun o => has_prefix (op_key o) (goleveldb.batch_ns b) = true)
           (goleveldb.levelBatch b) ->
    Forall (fun o => has_prefix (op_key o) (goleveldb.batch_ns b) = true)
           (goleveldb.levelBatch (fst (stage_all ops final b))).
Proof.
  induction ops as [|o ops IH]; intros b Hb; [exact Hb|].
  destruct o as [k v|k|]; cbn [stage_all stage goleveldb.Batch_Put
                                 goleveldb.Batch_Delete goleveldb.Batch_Clear].
  - apply (IH (goleveldb.mkBatch _ (goleveldb.batch_ns b))).
    cbn [goleveldb.levelBatch goleveldb.batch_ns].
    apply Forall_app. split; [exact Hb|].
    constructor; [apply has_prefix_app|constructor].
  - apply (IH (goleveldb.mkBatch _ (goleveldb.batch_ns b))).
    cbn [goleveldb.levelBatch goleveldb.batch_ns].
    apply Forall_app. split; [exact Hb|].
    constructor; [apply has_prefix_app|constructor].
  - apply (IH (goleveldb.mkBatch [] (goleveldb.batch_ns b))). constructor.
Qed.

(** A write batch leaves alone the keys none of its operations is on. *)
Lemma fold_apply_other (wb : WriteBatch) :
  forall (s : store) (kk : key),
    Forall (fun o => bytes_eqb (op_key o) kk = false) wb ->
    store_get (fold_left apply_op wb s) kk = store_get s kk.
Proof.
  induction wb as [|o wb IH]; intros s kk H; [reflexivity|].
  inversion H as [|? ? Ho Hwb]; subst. cbn [fold_left].
  rewrite (IH _ _ Hwb). destruct o as [k v|k]; cbn [apply_op op_key] in *.
  - rewrite store_get_put, Ho. reflexivity.
  - rewrite store_get_delete, Ho. reflexivity.
Qed.

Lemma bucket_same (q : goleveldb.Bucket) :
  goleveldb.mkBucket (goleveldb.db q) (goleveldb.ns q) = q.
Proof. destruct q; reflexivity. Qed.

(** X15.  [Bucket.Batch] never touches a key outside the namespace of the
    bucket, whatever its function stages with [Put], [Delete] and [Clear].
    It returns the error of its function if there is one, and otherwise that
    of the write; and when it returns an error the store is as it was. *)
Theorem Batch_stays_in_namespace (q : goleveldb.Bucket) (ops : list staged)
    (final : option error) :
  exists q',
    goleveldb.Bucket_Batch q (stage_all ops final) =
      (q', match final with
           | Some e => Some e
           | None => write_fault (goleveldb.db q)
           end) /\
    goleveldb.ns q' = goleveldb.ns q /\
    (forall kk,
        has_prefix kk (goleveldb.ns q) = false ->
        store_get (entries (goleveldb.db q')) kk =
        store_get (entries (goleveldb.db q)) kk) /\
    (final <> None \/ write_fault (goleveldb.db q) <> None -> q' = q).
Proof.
  unfold goleveldb.Bucket_Batch.
  pose proof (stage_all_result ops final (goleveldb.mkBatch [] (goleveldb.ns q)))
    as [Herr Hns].
  pose proof (stage_all_keys ops final (goleveldb.mkBatch [] (goleveldb.ns q))
                ltac:(constructor)) as Hkeys.
  destruct (stage_all ops final (goleveldb.mkBatch [] (goleveldb.ns q))) as [b' e].
  cbn [fst snd goleveldb.batch_ns] in *. subst e.
  destruct final as [e|].
  - exists q. split; [reflexivity|]. split; [reflexivity|]. split; [reflexivity|].
    reflexivity.
  - unfold goleveldb.Batch_Write, db_Write.
    destruct (write_fault (goleveldb.db q)) as [e|] eqn:Hw.
    + exists q. rewrite bucket_same. repeat split.
    + eexists. split; [reflexivity|]. cbn [goleveldb.ns goleveldb.db entries set_entries].
      split; [reflexivity|]. split.
      * intros kk Hkk. apply fold_apply_other.
        eapply List.Forall_impl; [|exact Hkeys].
        intros o Ho. cbn beta in Ho. apply (prefix_differs kk _ _ Hkk Ho).
      * intros [H|H]; contradiction H; reflexivity.
Qed.

Lemma stage_all_effect (s : store) (p k : key) (ops : list staged) :
  forall (b : goleveldb.Batch) (acc : option (option value)),
    goleveldb.batch_ns b = p ->
    store_get (fold_left apply_op (goleveldb.levelBatch b) s) (p ++ k) =
      match acc with Some r => r | None => store_get s (p ++ k) end ->
    store_get (fold_left apply_op
                 (goleveldb.levelBatch (fst (stage_all ops None b))) s) (p ++ k) =
      match staged_for ops k acc with Some r => r | None => store_get s (p ++ k) end.
Proof.
  induction ops as [|o ops IH]; intros b acc Hp Hacc; [exact Hacc|].
  destruct o as [k' v|k'|]; cbn [stage_all stage staged_for goleveldb.Batch_Put
                                   goleveldb.Batch_Delete goleveldb.Batch_Clear].
  - apply IH; [exact Hp|]. cbn [goleveldb.levelBatch].
    rewrite fold_left_app. cbn [fold_left apply_op].
    unfold goleveldb.append_ns. rewrite Hp, store_get_put, bytes_eqb_app.
    destruct (bytes_eqb k' k); [reflexivity|exact Hacc].
  - apply IH; [exact Hp|]. cbn [goleveldb.levelBatch].
    rewrite fold_left_app. cbn [fold_left apply_op].
    unfold goleveldb.append_ns. rewrite Hp, store_get_delete, bytes_eqb_app.
    destruct (bytes_eqb k' k); [reflexivity|exact Hacc].
  - apply IH; [exact Hp|]. reflexivity.
Qed.

(** X16.  After a batch that was written, [Get k] returns what the last call
    staged on [k] left: the value of a [Put], [ErrNotFound] after a
    [Delete]; [Clear] drops the calls made before it; and a key on which
    nothing is staged reads as before the batch. *)
Theorem Batch_last_call_wins (q : goleveldb.Bucket) (ops : list staged) :
  write_fault (goleveldb.db q) = None ->
  (forall kk, read_fault (goleveldb.db q) kk = None) ->
  exists q',
    goleveldb.Bucket_Batch q (stage_all ops None) = (q', None) /\
    forall k,
      goleveldb.Get q' k =
      match staged_for ops k None with
      | Some (Some v) => (Some v, None)
      | Some None => (None, Some ErrNotFound)
      | None => goleveldb.Get q k
      end.
Proof.
  intros Hw Hread. unfold goleveldb.Bucket_Batch.
  pose proof (stage_all_result ops None (goleveldb.mkBatch [] (goleveldb.ns q)))
    as [Herr _].
  pose proof (fun k =>
                stage_all_effect (entries (goleveldb.db q)) (goleveldb.ns q) k ops
                  (goleveldb.mkBatch [] (goleveldb.ns q)) None eq_refl eq_refl)
    as Heff.
  destruct (stage_all ops None (goleveldb.mkBatch [] (goleveldb.ns q))) as [b' e].
  cbn [fst snd] in *. subst e.
  unfold goleveldb.Batch_Write, db_Write. rewrite Hw.
  eexists. split; [reflexivity|].
  intros k. unfold goleveldb.Get, goleveldb_Get, goleveldb.append_ns.
  cbn [goleveldb.ns goleveldb.db entries set_entries read_fault].
  rewrite !Hread, Heff.
  destruct (staged_for ops k None) as [[v|]|]; reflexivity.
Qed.

Lemma Batch_last_call_wins_witness :
  write_fault (goleveldb.db bucket_one) = None /\
  (forall kk, read_fault (goleveldb.db bucket_one) kk = None) /\
  exists q',
    goleveldb.Bucket_Batch bucket_one
      (stage_all [SDelete (ID_Key 1%N); SClear; SPut (ID_Key 2%N) item2] None)
      = (q', None) /\
    goleveldb.Get q' (ID_Key 1%N) = (Some item1, None) /\
    goleveldb.Get q' (ID_Key 2%N) = (Some item2, None).
Proof.
  assert (Hread : forall kk, read_fault (goleveldb.db bucket_one) kk = None)
    by (intros kk; reflexivity).
  split; [reflexivity|]. split; [exact Hread|].
  destruct (Batch_last_call_wins bucket_one
              [SDelete (ID_Key 1%N); SClear; SPut (ID_Key 2%N) item2] eq_refl Hread)
    as (q' & E & Hget).
  exists q'. split; [exact E|]. split.
  - rewrite (Hget (ID_Key 1%N)). reflexivity.
  - rewrite (Hget (ID_Key 2%N)). reflexivity.
Defined.

(** ** [Bucket.Clear] on any bucket *)

Lemma Bucket_Clear_loop (q : goleveldb.Bucket) (it : list (key * value)) :
  Forall (fun kv => has_prefix (fst kv) (goleveldb.ns q) = true) it ->
  forall b,
    goleveldb.Clear_loop q it b =
    Returns (b ++ map BDelete
                    (map (fun kv => skipn (length (goleveldb.ns q)) (fst kv)) it)).
Proof.
  induction 1 as [|[kk v] it Hk _ IH]; intros b; cbn [goleveldb.Clear_loop map].
  - rewrite app_nil_r. reflexivity.
  - unfold goleveldb.slice_from.
    pose proof (has_prefix_length _ _ Hk) as Hl. cbn [fst] in Hl.
    apply Nat.leb_le in Hl. rewrite Hl. cbn [obind fst].
    rewrite IH, <- app_assoc. reflexivity.
Qed.

Lemma fold_deletes (ks : list key) :
  forall (s : store) (kk : key),
    store_get (fold_left apply_op (map BDelete ks) s) kk =
    if existsb (bytes_eqb kk) ks then None else store_get s kk.
Proof.
  induction ks as [|k ks IH]; intros s kk; [reflexivity|].
  cbn [map fold_left apply_op existsb]. rewrite IH, store_get_delete.
  rewrite (bytes_eqb_sym kk k).
  destruct (existsb (bytes_eqb kk) ks), (bytes_eqb k kk); reflexivity.
Qed.

(** X17.  [Bucket.Clear] does not panic and returns the error of its write.
    It deletes from the underlying store the keys of the namespace with the
    namespace stripped: the key [kk] of the store goes exactly when
    [ns ++ kk] is in the store, and every other key keeps its value.  So with
    an empty namespace it empties the store, and with another it deletes an
    entry of its own namespace only when the store also holds that key under
    the namespace twice. *)
Theorem Bucket_Clear_deletes_stripped_keys (q : goleveldb.Bucket) :
  exists q',
    goleveldb.Clear q = Returns (q', write_fault (goleveldb.db q)) /\
    goleveldb.ns q' = goleveldb.ns q /\
    (write_fault (goleveldb.db q) <> None -> q' = q) /\
    (write_fault (goleveldb.db q) = None ->
     (forall kk,
         store_get (entries (goleveldb.db q')) kk =
         match store_get (entries (goleveldb.db q)) (goleveldb.ns q ++ kk) with
         | Some _ => None
         | None => store_get (entries (goleveldb.db q)) kk
         end) /\
     (goleveldb.ns q = [] -> entries (goleveldb.db q') = [])).
Proof.
  unfold goleveldb.Clear.
  rewrite (Bucket_Clear_loop q _ (prefix_range_Forall _ _)). cbn [obind app].
  unfold db_Write. destruct (write_fault (goleveldb.db q)) as [e|] eqn:Hw.
  - exists q. rewrite bucket_same. split; [reflexivity|]. split; [reflexivity|].
    split; [reflexivity|discriminate].
  - eexists. split; [reflexivity|]. split; [reflexivity|].
    split; [intros H; contradiction H; reflexivity|]. intros _.
    cbn [goleveldb.db entries set_entries].
    assert (Hall : forall kk,
               store_get
                 (fold_left apply_op
                    (map BDelete
                       (map (fun kv => skipn (length (goleveldb.ns q)) (fst kv))
                            (prefix_range (goleveldb.db q) (goleveldb.ns q))))
                    (entries (goleveldb.db q))) kk =
               match store_get (entries (goleveldb.db q)) (goleveldb.ns q ++ kk) with
               | Some _ => None
               | None => store_get (entries (goleveldb.db q)) kk
               end).
    { intros kk. rewrite fold_deletes.
      destruct (existsb _ _) eqn:Ex.
      - apply existsb_exists in Ex as (x & Hin & Hx).
        apply bytes_eqb_eq in Hx. subst x.
        apply in_map_iff in Hin as ([k0 v0] & Hk & Hin). cbn [fst] in Hk.
        apply prefix_range_in in Hin as [Hin Hp]. cbn [fst] in Hp.
        rewrite (has_prefix_split k0 _ Hp), Hk in Hin.
        destruct (In_store_get _ _ _ Hin) as (v' & ->). reflexivity.
      - destruct (store_get (entries (goleveldb.db q)) (goleveldb.ns q ++ kk))
          as [v|] eqn:E; [|reflexivity].
        exfalso. apply store_get_In in E.
        assert (Hex : existsb (bytes_eqb kk)
                        (map (fun kv => skipn (length (goleveldb.ns q)) (fst kv))
                             (prefix_range (goleveldb.db q) (goleveldb.ns q))) = true).
        { apply existsb_exists. exists kk. split; [|apply bytes_eqb_refl].
          apply in_map_iff. exists (goleveldb.ns q ++ kk, v). split.
          - cbn [fst]. apply skipn_prefix.
          - apply prefix_range_in. split; [exact E|]. apply has_prefix_app. }
        congruence. }
    split; [exact Hall|].
    intros Hns. apply store_get_none_nil. intros k. rewrite Hall, Hns. cbn [app].
    destruct (store_get (entries (goleveldb.db q)) k); reflexivity.
Qed.

(** ** Batches and the other buckets *)

Lemma filter_filter_weaker {A : Type} (P Q : A -> bool) (l : list A) :
  (forall x, P x = true -> Q x = true) ->
  List.filter P (List.filter Q l) = List.filter P l.
Proof.
  intros H. induction l as [|x l IH]; [reflexivity|].
  cbn [List.filter]. destruct (Q x) eqn:EQ.
  - cbn [List.filter]. rewrite IH. reflexivity.
  - destruct (P x) eqn:EP; [|exact IH].
    rewrite (H x EP) in EQ. discriminate.
Qed.

Lemma range_apply_other (p : key) (o : batch_op) (s : store) :
  has_prefix (op_key o) p = false ->
  List.filter (fun kv => has_prefix (fst kv) p) (apply_op s o) =
  List.filter (fun kv => has_prefix (fst kv) p) s.
Proof.
  intros H. destruct o as [k v|k]; cbn [apply_op op_key] in *.
  - apply (filter_store_put (fun k' => has_prefix k' p)). exact H.
  - unfold store_delete. apply filter_filter_weaker.
    intros [k' v'] Hp. cbn [fst] in *.
    rewrite (prefix_differs k k' p H Hp). reflexivity.
Qed.

Lemma range_fold_other (p : key) (wb : WriteBatch) :
  forall s,
    Forall (fun o => has_prefix (op_key o) p = false) wb ->
    List.filter (fun kv => has_prefix (fst kv) p) (fold_left apply_op wb s) =
    List.filter (fun kv => has_prefix (fst kv) p) s.
Proof.
  induction wb as [|o wb IH]; intros s H; [reflexivity|].
  inversion H as [|? ? Ho Hwb]; subst. cbn [fold_left].
  rewrite (IH _ Hwb). apply range_apply_other, Ho.
Qed.

Lemma unrelated_sym (a b : key) : unrelated a b -> unrelated b a.
Proof. intros [H1 H2]. split; assumption. Qed.

Lemma prefix_not_unrelated (a b k : key) :
  unrelated a b -> has_prefix k a = true -> has_prefix k b = false.
Proof.
  intros Hab Hk. rewrite (has_prefix_split k a Hk).
  apply unrelated_no_prefix, Hab.
Qed.

(** X18.  A batch run through the bucket of namespace [a], whatever it stages
    and whether or not it is written, changes nothing for a bucket whose
    namespace [b] is neither a prefix of [a] nor has [a] as a prefix:
    [ForEach] shows every function the same entries and [Get] answers the
    same for every key. *)
Theorem Batch_isolated_from_other_bucket (a b : key) (d : LevelDB)
    (ops : list staged) (final : option error) :
  unrelated a b ->
  exists qa' err,
    goleveldb.Bucket_Batch (goleveldb.mkBucket d a) (stage_all ops final) = (qa', err) /\
    (forall (S : Type) (fn : goleveldb.visitor S) (st : S),
        goleveldb.ForEach (goleveldb.mkBucket (goleveldb.db qa') b) fn st =
        goleveldb.ForEach (goleveldb.mkBucket d b) fn st) /\
    (forall k,
        goleveldb.Get (goleveldb.mkBucket (goleveldb.db qa') b) k =
        goleveldb.Get (goleveldb.mkBucket d b) k).
Proof.
  intros Hab. unfold goleveldb.Bucket_Batch. cbn [goleveldb.ns goleveldb.db].
  pose proof (stage_all_keys ops final (goleveldb.mkBatch [] a) ltac:(constructor))
    as Hkeys.
  destruct (stage_all ops final (goleveldb.mkBatch [] a)) as [b' e].
  cbn [fst goleveldb.batch_ns] in Hkeys.
  destruct e as [e|].
  - eexists _, _. split; [reflexivity|]. split; reflexivity.
  - unfold goleveldb.Batch_Write, db_Write. destruct (write_fault d) as [e|].
    + eexists _, _. split; [reflexivity|]. split; reflexivity.
    + eexists _, _. split; [reflexivity|]. cbn [goleveldb.db]. split.
      * intros S fn st. rewrite !ForEach_visit. unfold prefix_range.
        cbn [goleveldb.db goleveldb.ns entries set_entries].
        rewrite range_fold_other; [reflexivity|].
        eapply List.Forall_impl; [|exact Hkeys].
        intros o Ho. cbn beta in Ho. apply (prefix_not_unrelated a b _ Hab Ho).
      * intros k. unfold goleveldb.Get, goleveldb_Get, goleveldb.append_ns.
        cbn [goleveldb.db goleveldb.ns entries set_entries read_fault].
        rewrite fold_apply_other; [reflexivity|].
        eapply List.Forall_impl; [|exact Hkeys].
        intros o Ho. cbn beta in Ho.
        apply (prefix_differs (b ++ k) _ a); [|exact Ho].
        apply unrelated_no_prefix, unrelated_sym, Hab.
Qed.

Lemma Batch_isolated_from_other_bucket_witness :
  unrelated ns_a ns_b /\
  exists qa' err,
    goleveldb.Bucket_Batch (goleveldb.mkBucket one_item ns_a)
      (stage_all [SDelete (ID_Key 1%N)] None) = (qa', err) /\
    forall k,
      goleveldb.Get (goleveldb.mkBucket (goleveldb.db qa') ns_b) k =
      goleveldb.Get (goleveldb.mkBucket one_item ns_b) k.
Proof.
  assert (Hab : unrelated ns_a ns_b) by (split; reflexivity).
  split; [exact Hab|].
  destruct (Batch_isolated_from_other_bucket ns_a ns_b one_item
              [SDelete (ID_Key 1%N)] None Hab) as (qa' & err & E & _ & Hget).
  exists qa', err. split; assumption.
Defined.
